(** * A shunting-yard expression compiler: tokenizer, operator registry,
      tree builder and evaluator

    Shallow embedding of the TypeScript sources (Token.ts, TokenType.ts,
    Operator.ts, Tokenizer.ts, FunctionMap.ts, ExprNode.ts, AST.ts) and of
    the one function in which the compiled artifact (shunting_yard.js)
    differs from them, followed by the properties established about them.

    Conventions of the embedding:
    - a JavaScript array used as a stack ([push]/[pop] at its end) is a
      list whose head is the top of the stack;
    - [undefined] and [null] are [None];
    - a [throw] is the [Throw] completion; reading a property of
      [undefined] is the engine's own TypeError, [UndefinedAccess];
    - numbers are IEEE 754 binary64 floats (Rocq's primitive floats);
    - a string is a sequence of character codes below 256. *)

From Stdlib Require Import ZArith String Ascii List Bool Lia.
From Stdlib Require Import Floats.PrimFloat Floats.SpecFloat Floats.FloatOps.
From Stdlib Require Import Numbers.Cyclic.Int63.Uint63.
From stdpp Require Import gmap strings list fin_maps sorting.

Local Open Scope string_scope.

(** ** The host language *)

(** What a [throw] carries. *)
Inductive exn : Type :=
| Error (message : string)
| TypeError (message : string)
| UndefinedAccess (property : string).

(** The outcome of a call: a value, or an exception that unwinds it. *)
Inductive completion (A : Type) : Type :=
| Normal (a : A)
| Throw (e : exn).

Arguments Normal {A} a.
Arguments Throw {A} e.

#[global] Instance completion_ret : MRet completion := λ A a, Normal a.
#[global] Instance completion_bind : MBind completion := λ A B k c,
  match c with
  | Normal a => k a
  | Throw e => Throw e
  end.

Module JS.

(** [s.charCodeAt(i)]; [None] is NaN, the answer past the end. *)
Definition charCodeAt (s : string) (i : nat) : option nat :=
  option_map nat_of_ascii (String.get i s).

(** [s.charAt(i)]; the empty string past the end. *)
Definition charAt (s : string) (i : nat) : string :=
  match String.get i s with
  | Some c => String c EmptyString
  | None => EmptyString
  end.

(** [s.substr(start, length)]. *)
Definition substr (s : string) (start len : nat) : string :=
  String.substring start len s.

(** [s.substring(from, to)]: both ends are clamped to the length of [s]
    and swapped when out of order. *)
Definition substring (s : string) (from to : nat) : string :=
  let a := Nat.min from (String.length s) in
  let b := Nat.min to (String.length s) in
  String.substring (Nat.min a b) (Nat.max a b - Nat.min a b) s.

(** Comparisons of character codes; each is false when a side is NaN. *)
Definition code_eq (a b : option nat) : bool :=
  match a, b with Some x, Some y => Nat.eqb x y | _, _ => false end.
Definition code_lt (a b : option nat) : bool :=
  match a, b with Some x, Some y => Nat.ltb x y | _, _ => false end.
Definition code_gt (a b : option nat) : bool := code_lt b a.
Definition code_le (a b : option nat) : bool :=
  match a, b with Some x, Some y => Nat.leb x y | _, _ => false end.
Definition code_ge (a b : option nat) : bool := code_le b a.

(** *** Numbers *)

(** The float nearest to [z] (exactly [z] when [|z| <= 2^53]). *)
Definition of_Z (z : Z) : float :=
  SF2Prim (binary_normalize prec emax z 0 false).

(** The float nearest to [n / d], ties to even, for [0 <= n] and [0 < d]:
    the quotient is taken with 64 or more significant bits and a sticky
    bit for the remainder, then rounded once. *)
Definition of_ratio (n d : Z) : float :=
  if (n =? 0)%Z then zero
  else
    let k := Z.max 0 (64 + Z.log2 d - Z.log2 n) in
    let q := (n * 2 ^ k / d)%Z in
    let r := ((n * 2 ^ k) mod d)%Z in
    let sticky := if (r =? 0)%Z then 0%Z else 1%Z in
    SF2Prim (binary_normalize prec emax (2 * q + sticky) (- k - 1) false).

Definition digit_of (c : ascii) : option Z :=
  let n := nat_of_ascii c in
  if (Nat.leb 48 n && Nat.leb n 57)%bool then Some (Z.of_nat (n - 48))
  else None.

(** Reads [digits [. digits]]: the digits read so far as an integer and
    the count of those after the decimal mark. *)
Fixpoint decimal (s : string) (mantissa : Z) (seenMark : bool)
    (fraction : nat) : option (Z * nat) :=
  match s with
  | EmptyString => Some (mantissa, fraction)
  | String c rest =>
      if Ascii.eqb c "."%char then
        if seenMark then None else decimal rest mantissa true fraction
      else
        match digit_of c with
        | Some v =>
            decimal rest (10 * mantissa + v)%Z seenMark
              (if seenMark then S fraction else fraction)
        | None => None
        end
  end.

(** [Number(s)] for the strings the tokenizer hands it: decimal digits
    with at most one decimal mark, read as the nearest float.  Any other
    string is NaN here. *)
Definition Number (s : string) : float :=
  match decimal s 0 false 0 with
  | Some (m, k) => of_ratio m (10 ^ Z.of_nat k)
  | None => nan
  end.

(** [Math.floor], [Math.ceil] and [Math.round], which are exact. *)
Definition signed (s : bool) (m : positive) : Z :=
  if s then Z.neg m else Z.pos m.

Definition Math_floor (x : float) : float :=
  match Prim2SF x with
  | S754_finite s m e =>
      if (0 <=? e)%Z then x else of_Z (Z.shiftr (signed s m) (- e))
  | _ => x
  end.

Definition Math_ceil (x : float) : float :=
  match Prim2SF x with
  | S754_finite s m e =>
      if (0 <=? e)%Z then x
      else
        let q := (- Z.shiftr (- signed s m) (- e))%Z in
        if (q =? 0)%Z then neg_zero else of_Z q
  | _ => x
  end.

Definition Math_round (x : float) : float :=
  match Prim2SF x with
  | S754_finite s m e =>
      if (0 <=? e)%Z then x
      else
        let q := Z.shiftr (2 * signed s m + 2 ^ (- e)) (1 - e) in
        if ((q =? 0)%Z && s)%bool then neg_zero else of_Z q
  | _ => x
  end.

(** [a % b]: the remainder of the truncating division, with the sign of
    the dividend; it is always exact. *)
Definition rem (a b : float) : float :=
  match Prim2SF a, Prim2SF b with
  | S754_nan, _ | _, S754_nan => nan
  | S754_infinity _, _ => nan
  | _, S754_zero _ => nan
  | _, S754_infinity _ => a
  | S754_zero _, _ => a
  | S754_finite sa ma ea, S754_finite _ mb eb =>
      let e := Z.min ea eb in
      let r := ((Z.pos ma * 2 ^ (ea - e)) mod (Z.pos mb * 2 ^ (eb - e)))%Z in
      SF2Prim (binary_normalize prec emax (if sa then - r else r)%Z e sa)
  end.

(** [Math.pow(base, exponent)].  The language leaves its result
    implementation-approximated; the model answers where it is exact
    (a small non-negative integer exponent and a power that is a float)
    and has no answer elsewhere. *)
Definition natural (x : spec_float) : option Z :=
  match x with
  | S754_zero _ => Some 0%Z
  | S754_finite false m e =>
      if (0 <=? e)%Z then Some (Z.pos m * 2 ^ e)%Z
      else if (Z.pos m mod 2 ^ (- e) =? 0)%Z then Some (Z.pos m / 2 ^ (- e))%Z
      else None
  | _ => None
  end.

Definition exactly (r : spec_float) (p e : Z) : bool :=
  match r with
  | S754_finite s m' e' =>
      let v := signed s m' in
      if (e <=? e')%Z then (v * 2 ^ (e' - e) =? p)%Z
      else (v =? p * 2 ^ (e - e'))%Z
  | _ => false
  end.

Definition Math_pow (base exponent : float) : option float :=
  match natural (Prim2SF exponent) with
  | Some 0%Z => Some one
  | Some n =>
      if (n <=? 2048)%Z then
        match Prim2SF base with
        | S754_finite s m e =>
            let p := (signed s m ^ n)%Z in
            let r := binary_normalize prec emax p (e * n) false in
            if exactly r p (e * n) then Some (SF2Prim r) else None
        | _ => None
        end
      else None
  | None => None
  end.

End JS.

(** ** Functions as values *)

(** A function of the program, by the number of parameters it declares.
    A body has no answer ([None]) where the model of the host language
    has none: [Math.random], and [Math.pow] outside its exact cases. *)
Inductive JSFunction : Type :=
| Fun0 (body : option float)
| Fun1 (body : float → option float)
| Fun2 (body : float → float → option float).

(** [f.length]: the number of declared parameters. *)
Definition func_length (f : JSFunction) : nat :=
  match f with
  | Fun0 _ => 0
  | Fun1 _ => 1
  | Fun2 _ => 2
  end.

(** [f.apply(null, args)], for an argument list as long as [f.length]
    (the only calls the program makes); no answer otherwise. *)
Definition apply (f : JSFunction) (args : list float) : option float :=
  match f, args with
  | Fun0 body, [] => body
  | Fun1 body, [a] => body a
  | Fun2 body, [a; b] => body a b
  | _, _ => None
  end.

Definition total1 (f : float → float) : JSFunction :=
  Fun1 (fun a => Some (f a)).
Definition total2 (f : float → float → float) : JSFunction :=
  Fun2 (fun a b => Some (f a b)).

(** ** TokenType.ts *)

Inductive TokenType : Type :=
| Number
| Operator
| LeftParenthesis
| RightParenthesis
| Function
| ArgumentSeparator.

#[global] Instance TokenType_eq_dec : EqDecision TokenType.
Proof. solve_decision. Defined.

(** ** Operator.ts *)

Module Operator.

(** The fields of the class; [length] is the arity. *)
Record t : Type := mk {
  symbol : string;
  precedence : Z;
  isLeftAssociative : bool;
  func : JSFunction;
  length : nat
}.

(** One entry of the static dictionary: the operators whose symbols have
    [symbolLength] characters, by symbol. *)
Record entry : Type := mkEntry {
  symbolLength : nat;
  opMap : gmap string t
}.

(** The field assignments of the constructor. *)
Definition make (precedence : Z) (symbol : string)
    (isLeftAssociative : bool) (func : JSFunction) : t :=
  {| symbol := symbol;
     precedence := precedence;
     isLeftAssociative := isLeftAssociative;
     func := func;
     length := func_length func |}.

(** [dic.sort((a, b) => b.symbolLength - a.symbolLength)]: a stable sort
    into descending order of [symbolLength]. *)
Fixpoint insert_desc (e : entry) (dic : list entry) : list entry :=
  match dic with
  | [] => [e]
  | x :: rest =>
      if Nat.leb (symbolLength x) (symbolLength e) then e :: x :: rest
      else x :: insert_desc e rest
  end.

Definition sort (dic : list entry) : list entry :=
  foldr insert_desc [] dic.

(** Step 1 of [register]: the loop leaves in [entry] the last element of
    the dictionary with the wanted [symbolLength]; the model keeps its
    index, the element being updated in place later. *)
Fixpoint find_entry (opLength : nat) (dic : list entry) (i : nat)
    (found : option nat) : option nat :=
  match dic with
  | [] => found
  | e :: rest =>
      find_entry opLength rest (S i)
        (if Nat.eqb (symbolLength e) opLength then Some i else found)
  end.

(** Step 3 of [register], on the entry at index [i]. *)
Definition add_to_entry (op : t) (i : nat) (dic : list entry)
    : completion (list entry) :=
  match dic !! i with
  | Some e =>
      match opMap e !! symbol op with
      | Some _ => Throw (Error "Operator symbols must be unique.")
      | None =>
          Normal (<[i := {| symbolLength := symbolLength e;
                            opMap := <[symbol op := op]> (opMap e) |}]> dic)
      end
  | None => Throw (UndefinedAccess "opMap")
  end.

Definition register (op : t) (dic : list entry) : completion (list entry) :=
  let opLength := String.length (symbol op) in
  match find_entry opLength dic 0 None with
  | Some i => add_to_entry op i dic
  | None =>
      let dic' := sort (dic ++ [{| symbolLength := opLength; opMap := ∅ |}]) in
      match find_entry opLength dic' 0 None with
      | Some i => add_to_entry op i dic'
      | None => Throw (UndefinedAccess "opMap")
      end
  end.

(** [Operator.parse] against a given state of the dictionary. *)
Fixpoint parse_in (dic : list entry) (expr : string) (startIndex : nat)
    : option t :=
  match dic with
  | [] => None
  | entry :: rest =>
      let endIndex := startIndex + symbolLength entry in
      if Nat.ltb (String.length expr) endIndex then
        parse_in rest expr startIndex
      else
        let testedString := JS.substring expr startIndex endIndex in
        match opMap entry !! testedString with
        | Some op => Some op
        | None => parse_in rest expr startIndex
        end
  end.

(** The seven [new Operator(...)] statements that end the file, in
    order. *)
Definition add : t := make 0 "+" true (total2 PrimFloat.add).
Definition sub : t := make 0 "-" true (total2 PrimFloat.sub).
Definition mul : t := make 1 "*" true (total2 PrimFloat.mul).
Definition div : t := make 1 "/" true (total2 PrimFloat.div).
Definition rem : t := make 1 "%" true (total2 JS.rem).
Definition pow : t := make 2 "**" false (Fun2 JS.Math_pow).
Definition neg : t := make 3 "~" false (total1 PrimFloat.opp).

Definition builtins : list t := [add; sub; mul; div; rem; pow; neg].

(** Running the constructors: each registers its operator. *)
Fixpoint register_all (ops : list t) (dic : list entry)
    : completion (list entry) :=
  match ops with
  | [] => Normal dic
  | op :: rest => dic' ← register op dic; register_all rest dic'
  end.

(** The static dictionary once the module is loaded. *)
Definition dictionary : list entry :=
  match register_all builtins [] with
  | Normal dic => dic
  | Throw _ => []
  end.

Definition parse (expr : string) (startIndex : nat) : option t :=
  parse_in dictionary expr startIndex.

End Operator.


(** ** FunctionMap.ts *)

Definition max : JSFunction :=
  Fun2 (fun a b => Some (if PrimFloat.ltb b a then a else b)).
Definition min : JSFunction :=
  Fun2 (fun a b => Some (if PrimFloat.ltb a b then a else b)).
Definition rand : JSFunction := Fun0 None.
Definition floor : JSFunction := total1 JS.Math_floor.
Definition ceil : JSFunction := total1 JS.Math_ceil.
Definition round : JSFunction := total1 JS.Math_round.

Definition FunctionMap : gmap string JSFunction :=
  <["max" := max]> (<["min" := min]> (<["rand" := rand]>
    (<["floor" := floor]> (<["ceil" := ceil]> (<["round" := round]> ∅))))).

(** ** Token.ts *)

(** What a token is built from. *)
Inductive Value : Type :=
| VNumber (n : float)
| VOperator (op : Operator.t)
| VString (s : string)
| VFunction (f : JSFunction).

(** A token: its [value], from which its [type] follows. *)
Inductive Token : Type :=
| TNumber (value : float)
| TOperator (value : Operator.t)
| TLeftParenthesis
| TRightParenthesis
| TArgumentSeparator
| TFunction (value : JSFunction).

(** [Token.resolveType] and the constructor: the token of a value. *)
Definition new_Token (value : Value) : completion Token :=
  match value with
  | VNumber n => Normal (TNumber n)
  | VOperator op => Normal (TOperator op)
  | VString s =>
      if String.eqb s "(" then Normal TLeftParenthesis
      else if String.eqb s ")" then Normal TRightParenthesis
      else if String.eqb s "," then Normal TArgumentSeparator
      else Throw (TypeError "Unknown token type.")
  | VFunction f => Normal (TFunction f)
  end.

(** [token.type]. *)
Definition type (token : Token) : TokenType :=
  match token with
  | TNumber _ => Number
  | TOperator _ => Operator
  | TLeftParenthesis => LeftParenthesis
  | TRightParenthesis => RightParenthesis
  | TArgumentSeparator => ArgumentSeparator
  | TFunction _ => Function
  end.

(** [token.value.length] for the tokens [popOperator] reads it from: the
    arity of an operator, the parameter count of a function. *)
Definition value_length (token : Token) : option nat :=
  match token with
  | TOperator op => Some (Operator.length op)
  | TFunction f => Some (func_length f)
  | _ => None
  end.

(** ** ExprNode.ts *)

#[local] Unset Elimination Schemes.
(** A node keeps its token and the [children] it was built with, which
    are absent when the constructor got one argument. *)
Inductive ExprNode : Type :=
| mkExprNode (token : Token) (children : option (list ExprNode)).
#[local] Set Elimination Schemes.

Definition token (node : ExprNode) : Token :=
  match node with mkExprNode t _ => t end.
Definition children (node : ExprNode) : option (list ExprNode) :=
  match node with mkExprNode _ c => c end.

(** The function a node applies: [token.value.func] of an operator,
    [token.value] of a function. *)
Definition callee (token : Token) : completion JSFunction :=
  match token with
  | TOperator op => Normal (Operator.func op)
  | TFunction f => Normal f
  | _ => Throw (Error "Unexpected token type.")
  end.

(** [node.evaluate()].  The outer [option] is [None] where a function
    body has no answer in the model. *)
Fixpoint evaluate (node : ExprNode) : option (completion float) :=
  match node with
  | mkExprNode (TNumber value) _ => Some (Normal value)
  | mkExprNode token children =>
      match callee token with
      | Throw e => Some (Throw e)
      | Normal func =>
          match children with
          | None => Some (Throw (UndefinedAccess "map"))
          | Some nodes =>
              let map :=
                fix map (nodes : list ExprNode)
                    : option (completion (list float)) :=
                  match nodes with
                  | [] => Some (Normal [])
                  | child :: rest =>
                      match evaluate child with
                      | Some (Normal v) =>
                          match map rest with
                          | Some (Normal vs) => Some (Normal (v :: vs))
                          | other => other
                          end
                      | Some (Throw e) => Some (Throw e)
                      | None => None
                      end
                  end in
              match map nodes with
              | Some (Normal args) => option_map Normal (apply func args)
              | Some (Throw e) => Some (Throw e)
              | None => None
              end
          end
      end
  end.

(** ** Tokenizer.ts *)

(** The result of reading one token: the token and the number of
    characters it took. *)
Record ParseInfo : Type := mkParseInfo {
  info_token : Token;
  charsRead : nat
}.

Module Tokenizer.

Definition isAlphabetic (str : string) (index : nat) : bool :=
  let charCode := JS.charCodeAt str index in
  (JS.code_ge charCode (JS.charCodeAt "a" 0)
     && JS.code_le charCode (JS.charCodeAt "z" 0))
  || (JS.code_ge charCode (JS.charCodeAt "A" 0)
        && JS.code_le charCode (JS.charCodeAt "Z" 0)).

Definition isAlphaNumeric (str : string) (index : nat) : bool :=
  let charCode := JS.charCodeAt str index in
  (JS.code_ge charCode (JS.charCodeAt "0" 0)
     && JS.code_le charCode (JS.charCodeAt "9" 0))
  || (JS.code_ge charCode (JS.charCodeAt "a" 0)
        && JS.code_le charCode (JS.charCodeAt "z" 0))
  || (JS.code_ge charCode (JS.charCodeAt "A" 0)
        && JS.code_le charCode (JS.charCodeAt "Z" 0)).

(** The [for] loop of [readNumber], from position [i] with the flag
    [decimalMark]; it returns both as the loop leaves them.  [steps]
    bounds the iterations and is given as the characters left, which the
    loop cannot exceed. *)
Fixpoint readNumber_loop (steps : nat) (expr : string) (i decimalMark : nat)
    : nat * nat :=
  match steps with
  | 0 => (i, decimalMark)
  | S steps' =>
      if Nat.ltb i (String.length expr) then
        let charCode := JS.charCodeAt expr i in
        if JS.code_eq charCode (JS.charCodeAt "." 0) then
          if Nat.eqb decimalMark 1 then (i, decimalMark)
          else readNumber_loop steps' expr (S i) 1
        else if JS.code_lt charCode (JS.charCodeAt "0" 0)
                || JS.code_gt charCode (JS.charCodeAt "9" 0) then
          (i, decimalMark)
        else readNumber_loop steps' expr (S i) decimalMark
      else (i, decimalMark)
  end.

Definition readNumber (expr : string) (index : nat)
    : completion (option ParseInfo) :=
  let '(i, decimalMark) :=
    readNumber_loop (String.length expr - index) expr index 0 in
  let charsRead := i - index in
  if Nat.eqb (charsRead - decimalMark) 0 then Normal None
  else
    let parsedNumber := JS.Number (JS.substr expr index charsRead) in
    token ← new_Token (VNumber parsedNumber);
    Normal (Some {| info_token := token; charsRead := charsRead |}).

(** The [for] loop of [readFunction], from position [i]; it returns the
    position at which the loop stops. *)
Fixpoint readFunction_loop (steps : nat) (expr : string) (i : nat) : nat :=
  match steps with
  | 0 => i
  | S steps' =>
      if Nat.ltb i (String.length expr) then
        if negb (isAlphaNumeric expr i) then i
        else readFunction_loop steps' expr (S i)
      else i
  end.

(** [readFunction], given how the name is cut out of [expr] once the
    loop has stopped at [i]: the one expression in which the compiled
    artifact differs. *)
Definition readFunction_by (cut : string → nat → nat → string)
    (expr : string) (index : nat) : completion (option ParseInfo) :=
  if negb (isAlphabetic expr index) then Normal None
  else
    let i :=
      readFunction_loop (String.length expr - (index + 1)) expr (index + 1) in
    let functionName := cut expr index i in
    match FunctionMap !! functionName with
    | None => Normal None
    | Some f =>
        token ← new_Token (VFunction f);
        Normal (Some {| info_token := token; charsRead := i - index |})
    end.

(** Tokenizer.ts: [expr.substr(index, i)]. *)
Definition readFunction : string → nat → completion (option ParseInfo) :=
  readFunction_by JS.substr.

Section Scanner.

(** The function-name recognizer [readToken] falls back on. *)
Variable readFunction : string → nat → completion (option ParseInfo).

Definition readToken_by (expr : string) (index : nat)
    : completion (option ParseInfo) :=
  info ← readNumber expr index;
  match info with
  | Some _ => Normal info
  | None =>
      match Operator.parse expr index with
      | Some op =>
          token ← new_Token (VOperator op);
          Normal (Some {| info_token := token;
                          charsRead := String.length (Operator.symbol op) |})
      | None =>
          let char := JS.charAt expr index in
          if String.eqb char "(" || String.eqb char ")"
             || String.eqb char "," then
            token ← new_Token (VString char);
            Normal (Some {| info_token := token; charsRead := 1 |})
          else
            info ← readFunction expr index;
            match info with
            | Some _ => Normal info
            | None => Normal None
            end
      end
  end.

(** The [while] loop of [tokenize], from position [i] with the tokens
    read so far.  [None] is the budget [steps] running out before the
    loop ends. *)
Fixpoint tokenize_loop (steps : nat) (expr : string) (i : nat)
    (tokenList : list Token) : option (completion (list Token)) :=
  match steps with
  | 0 => None
  | S steps' =>
      if Nat.ltb i (String.length expr) then
        let charCode := JS.charCodeAt expr i in
        if JS.code_eq charCode (JS.charCodeAt " " 0)
           || JS.code_eq charCode (JS.charCodeAt (String "010" "") 0)
           || JS.code_eq charCode (JS.charCodeAt (String "013" "") 0)
           || JS.code_eq charCode (JS.charCodeAt (String "009" "") 0) then
          tokenize_loop steps' expr (S i) tokenList
        else
          match readToken_by expr i with
          | Throw e => Some (Throw e)
          | Normal None =>
              Some (Throw (Error ("Unexpected token or symbol: '"
                                    ++ JS.charAt expr i ++ "'.")))
          | Normal (Some info) =>
              tokenize_loop steps' expr (i + charsRead info)
                (tokenList ++ [info_token info])
          end
      else Some (Normal tokenList)
  end.

(** [tokenize], with a budget of one step per character and one to
    leave the loop. *)
Definition tokenize_by (expr : string) : option (completion (list Token)) :=
  tokenize_loop (S (String.length expr)) expr 0 [].

End Scanner.

Definition readToken : string → nat → completion (option ParseInfo) :=
  readToken_by readFunction.

Definition tokenize : string → option (completion (list Token)) :=
  tokenize_by readFunction.

End Tokenizer.

(** ** shunting_yard.js, the compiled artifact

    Its text is that of the sources above, function by function, but for
    two [console.log] traces (which return nothing) and for one call in
    [readFunction]. *)

Module Compiled.

(** shunting_yard.js: [expr.substring(index, i)]. *)
Definition readFunction : string → nat → completion (option ParseInfo) :=
  Tokenizer.readFunction_by JS.substring.

Definition readToken : string → nat → completion (option ParseInfo) :=
  Tokenizer.readToken_by readFunction.

Definition tokenize : string → option (completion (list Token)) :=
  Tokenizer.tokenize_by readFunction.

End Compiled.

(** ** AST.ts *)

Module AST.

(** The messages of the errors [create] throws. *)
Definition MismatchedRightParen : exn :=
  Error "Mismatched right parenthesis, ')'.".
Definition MismatchedLeftParen : exn :=
  Error "Mismatched left parenthesis, '('.".
Definition InvalidOperator : exn :=
  Error "Invalid operator or function token.".
Definition NotEnoughExpressions : exn :=
  Error "Not enough expressions on the stack.".

(** [array[array.length - 1]]: [undefined] on an empty array. *)
Definition peek {T : Type} (array : list T) : option T := head array.

(** The two stacks of [create]: [opStack] and [exprStack]. *)
Definition stacks : Type := list Token * list ExprNode.

(** What [popOperator] does with the token it popped: check its type,
    take [argCount] nodes off [exprStack] (the last popped is the first
    argument) and push the node built from them. *)
Definition reduce (token : Token) (exprStack : list ExprNode)
    : completion (list ExprNode) :=
  if negb (bool_decide (type token = Function))
     && negb (bool_decide (type token = Operator)) then
    Throw InvalidOperator
  else
    match value_length token with
    | None => Throw (UndefinedAccess "length")
    | Some argCount =>
        if Nat.ltb (length exprStack) argCount then
          Throw NotEnoughExpressions
        else
          let args := rev (take argCount exprStack) in
          Normal (mkExprNode token (Some args) :: drop argCount exprStack)
    end.

Definition popOperator (opStack : list Token) (exprStack : list ExprNode)
    : completion stacks :=
  match opStack with
  | [] => Throw (UndefinedAccess "type")
  | token :: opStack' =>
      exprStack' ← reduce token exprStack;
      Normal (opStack', exprStack')
  end.

(** [Case 3], the loop run for a right parenthesis.  Each round that
    does not leave the loop pops one token, so the loop is a recursion
    on [opStack]; its last branch is [popOperator(opStack, exprStack)]. *)
Fixpoint rightParenthesis (opStack : list Token) (exprStack : list ExprNode)
    : completion stacks :=
  match opStack with
  | [] => Throw MismatchedRightParen
  | top :: opStack' =>
      if bool_decide (type top = LeftParenthesis) then
        match peek opStack' with
        | None => Throw (UndefinedAccess "type")
        | Some next =>
            if bool_decide (type next = Function) then
              popOperator opStack' exprStack
            else Normal (opStack', exprStack)
        end
      else
        exprStack' ← reduce top exprStack;
        rightParenthesis opStack' exprStack'
  end.

(** [Case 4], the loop run for the operator [op] before it is pushed;
    its last branch is [popOperator(opStack, exprStack)]. *)
Fixpoint operator (op : Operator.t) (opStack : list Token)
    (exprStack : list ExprNode) : completion stacks :=
  match opStack with
  | [] => Normal (opStack, exprStack)
  | nextOp :: opStack' =>
      match nextOp with
      | TOperator next =>
          if Operator.isLeftAssociative op
             && (Operator.precedence next <? Operator.precedence op)%Z then
            Normal (opStack, exprStack)
          else if negb (Operator.isLeftAssociative op)
                  && (Operator.precedence next <=? Operator.precedence op)%Z then
            Normal (opStack, exprStack)
          else
            exprStack' ← reduce nextOp exprStack;
            operator op opStack' exprStack'
      | _ => Normal (opStack, exprStack)
      end
  end.

(** [Case 5], the loop run for an argument separator:
    [exprStack.push(new ExprNode(opStack.pop()))] until a left
    parenthesis is on top. *)
Fixpoint argumentSeparator (opStack : list Token)
    (exprStack : list ExprNode) : completion stacks :=
  match opStack with
  | [] => Throw (UndefinedAccess "type")
  | nextOp :: opStack' =>
      if bool_decide (type nextOp = LeftParenthesis) then
        Normal (opStack, exprStack)
      else argumentSeparator opStack' (mkExprNode nextOp None :: exprStack)
  end.

(** The body of the [for] loop: the [switch] on [token.type]. *)
Definition step (token : Token) (s : stacks) : completion stacks :=
  let '(opStack, exprStack) := s in
  match token with
  | TNumber _ => Normal (opStack, mkExprNode token None :: exprStack)
  | TLeftParenthesis => Normal (token :: opStack, exprStack)
  | TRightParenthesis => rightParenthesis opStack exprStack
  | TOperator op =>
      '(opStack', exprStack') ← operator op opStack exprStack;
      Normal (token :: opStack', exprStack')
  | TArgumentSeparator => argumentSeparator opStack exprStack
  | TFunction _ => Normal (token :: opStack, exprStack)
  end.

(** The [for] loop over the tokens. *)
Fixpoint run (tokens : list Token) (s : stacks) : completion stacks :=
  match tokens with
  | [] => Normal s
  | token :: rest => s' ← step token s; run rest s'
  end.

(** The closing loop: pop what is left of [opStack]; its last branch is
    [popOperator(opStack, exprStack)]. *)
Fixpoint remaining (opStack : list Token) (exprStack : list ExprNode)
    : completion (list ExprNode) :=
  match opStack with
  | [] => Normal exprStack
  | next :: opStack' =>
      if bool_decide (type next = LeftParenthesis) then
        Throw MismatchedLeftParen
      else
        exprStack' ← reduce next exprStack;
        remaining opStack' exprStack'
  end.

(** [create]: the loops, then [exprStack.pop()], which is [undefined]
    when nothing is left. *)
Definition create (tokens : list Token) : completion (option ExprNode) :=
  '(opStack, exprStack) ← run tokens ([], []);
  exprStack' ← remaining opStack exprStack;
  Normal (head exprStack').

End AST.

(** ** The three calls in sequence *)

(** [AST.create(Tokenizer.tokenize(expr)).evaluate()]: [None] if the
    model has no answer; evaluating [undefined] is an error of the engine. *)
Definition calculate_by (tokenize : string → option (completion (list Token)))
    (expr : string) : option (completion float) :=
  match tokenize expr with
  | None => None
  | Some (Throw e) => Some (Throw e)
  | Some (Normal tokens) =>
      match AST.create tokens with
      | Throw e => Some (Throw e)
      | Normal None => Some (Throw (UndefinedAccess "evaluate"))
      | Normal (Some root) => evaluate root
      end
  end.

Definition calculate : string → option (completion float) :=
  calculate_by Tokenizer.tokenize.

(** ** Vocabulary of the properties *)

Local Open Scope list_scope.
Local Open Scope nat_scope.

(** Nodes as they are built: from a number, by [popOperator], and by the
    argument-separator case. *)
Definition leaf (value : float) : ExprNode := mkExprNode (TNumber value) None.
Definition node (token : Token) (args : list ExprNode) : ExprNode :=
  mkExprNode token (Some args).
Definition bare (token : Token) : ExprNode := mkExprNode token None.

(** The invariant of a tree: a number has no children, an operator or a
    function has as many children as its arity, each such a tree, and no
    other token heads a node. *)
Fixpoint well_formed (n : ExprNode) : bool :=
  match n with
  | mkExprNode (TNumber _) None => true
  | mkExprNode (TNumber _) (Some args) => bool_decide (args = [])
  | mkExprNode token (Some args) =>
      match value_length token with
      | Some arity => Nat.eqb (length args) arity && forallb well_formed args
      | None => false
      end
  | mkExprNode _ None => false
  end.

(** Reducing, one after the other from the top, all the tokens of a part
    of [opStack]. *)
Fixpoint reduce_all (opStack : list Token) (exprStack : list ExprNode)
    : completion (list ExprNode) :=
  match opStack with
  | [] => Normal exprStack
  | token :: opStack' =>
      exprStack' ← AST.reduce token exprStack;
      reduce_all opStack' exprStack'
  end.

(** [symbol] stands in [expr] at position [index]. *)
Definition stands_at (symbol expr : string) (index : nat) : Prop :=
  index + String.length symbol ≤ String.length expr
  ∧ JS.substring expr index (index + String.length symbol) = symbol.

(** The operators registered so far are exactly [ops], with respect to a
    state [dic] of the dictionary: entries in descending order of
    [symbolLength], one per length, each holding under its symbol every
    operator of that length. *)
Record registry (ops : list Operator.t) (dic : list Operator.entry) : Prop := {
  registry_sorted :
    StronglySorted (λ a b : nat, b ≤ a) (Operator.symbolLength <$> dic);
  registry_lengths : NoDup (Operator.symbolLength <$> dic);
  registry_sound : ∀ e s op,
    e ∈ dic → Operator.opMap e !! s = Some op →
    Operator.symbol op = s ∧ String.length s = Operator.symbolLength e
    ∧ op ∈ ops;
  registry_complete : ∀ op,
    op ∈ ops → ∃ e, e ∈ dic ∧ Operator.opMap e !! Operator.symbol op = Some op
}.

(** The identifier at [index]: the characters up to where the loop of
    [readFunction] stops. *)
Definition identifier (expr : string) (index : nat) : string :=
  JS.substring expr index
    (Tokenizer.readFunction_loop (String.length expr - (index + 1)) expr
       (index + 1)).

(** The character at [i] is a decimal digit, is the decimal mark, is one
    of the four characters [tokenize] skips. *)
Definition digit_at (expr : string) (i : nat) : bool :=
  JS.code_ge (JS.charCodeAt expr i) (JS.charCodeAt "0" 0)
  && JS.code_le (JS.charCodeAt expr i) (JS.charCodeAt "9" 0).
Definition mark_at (expr : string) (i : nat) : bool :=
  JS.code_eq (JS.charCodeAt expr i) (JS.charCodeAt "." 0).
Definition space_at (expr : string) (i : nat) : bool :=
  JS.code_eq (JS.charCodeAt expr i) (JS.charCodeAt " " 0)
  || JS.code_eq (JS.charCodeAt expr i) (JS.charCodeAt (String "010" "") 0)
  || JS.code_eq (JS.charCodeAt expr i) (JS.charCodeAt (String "013" "") 0)
  || JS.code_eq (JS.charCodeAt expr i) (JS.charCodeAt (String "009" "") 0).

(** A token the registries account for: an operator that is registered,
    a function that [FunctionMap] holds. *)
Definition known (token : Token) : Prop :=
  match token with
  | TOperator op => op ∈ Operator.builtins
  | TFunction f => ∃ name, FunctionMap !! name = Some f
  | _ => True
  end.

(** The tokens [create] pushes on [opStack]. *)
Definition pending (token : Token) : bool :=
  match token with
  | TLeftParenthesis | TOperator _ | TFunction _ => true
  | _ => false
  end.

(** No node of the tree is headed by a parenthesis or a separator. *)
Fixpoint plain (n : ExprNode) : bool :=
  match n with
  | mkExprNode token children =>
      match token with
      | TNumber _ | TOperator _ | TFunction _ =>
          match children with
          | Some args => forallb plain args
          | None => true
          end
      | _ => false
      end
  end.

(** The exceptions [create] can end in. *)
Definition create_error (e : exn) : Prop :=
  e = AST.MismatchedRightParen ∨ e = AST.MismatchedLeftParen
  ∨ e = AST.NotEnoughExpressions ∨ e = UndefinedAccess "type".

(** [opStack] rests on a left parenthesis. *)
Definition bottomed (s : AST.stacks) : Prop :=
  ∃ above, s.1 = above ++ [TLeftParenthesis].

(** The tokens of [a0 op a1 op ... op an]. *)
Definition chain (op : Operator.t) (a0 : float) (rest : list float)
    : list Token :=
  TNumber a0 :: flat_map (λ a, [TOperator op; TNumber a]) rest.

(** The trees that group such a chain to the left and to the right. *)
Definition left_nested (op : Operator.t) (a0 : float) (rest : list float)
    : ExprNode :=
  foldl (λ acc a, node (TOperator op) [acc; leaf a]) (leaf a0) rest.
Fixpoint right_nested (op : Operator.t) (a0 : float) (rest : list float)
    : ExprNode :=
  match rest with
  | [] => leaf a0
  | a1 :: rest' => node (TOperator op) [leaf a0; right_nested op a1 rest']
  end.

(** The tokens of the call [f(a1, ..., an)] on numbers. *)
Definition arguments (args : list float) : list Token :=
  match args with
  | [] => []
  | a :: rest =>
      TNumber a :: flat_map (λ b, [TArgumentSeparator; TNumber b]) rest
  end.
Definition call (f : JSFunction) (args : list float) : list Token :=
  TFunction f :: TLeftParenthesis :: arguments args ++ [TRightParenthesis].

(** [this.children.map(child => child.evaluate())], as [evaluate] has
    it inside. *)
Definition evaluate_all : list ExprNode → option (completion (list float)) :=
  fix map (nodes : list ExprNode) : option (completion (list float)) :=
    match nodes with
    | [] => Some (Normal [])
    | child :: rest =>
        match evaluate child with
        | Some (Normal v) =>
            match map rest with
            | Some (Normal vs) => Some (Normal (v :: vs))
            | other => other
            end
        | Some (Throw e) => Some (Throw e)
        | None => None
        end
    end.

(** The numbers of a chain but the last, nested to the right around the
    tree of what follows them. *)
Fixpoint nest (op : Operator.t) (front : list float) (inner : ExprNode) :
    ExprNode :=
  match front with
  | [] => inner
  | a :: front' => node (TOperator op) [leaf a; nest op front' inner]
  end.

(** Induction on trees: a property that holds of a node whenever it holds
    of its children holds of every node. *)
Fixpoint ExprNode_induction (P : ExprNode → Prop)
    (Hbare : ∀ token, P (mkExprNode token None))
    (Hnode : ∀ token args, Forall P args → P (mkExprNode token (Some args)))
    (n : ExprNode) : P n :=
  match n with
  | mkExprNode token None => Hbare token
  | mkExprNode token (Some args) =>
      Hnode token args
        ((fix all (l : list ExprNode) : Forall P l :=
            match l with
            | [] => @List.Forall_nil _ P
            | child :: l' =>
                @List.Forall_cons _ P child l'
                  (ExprNode_induction P Hbare Hnode child) (all l')
            end) args)
  end.

(** ** Properties of the operator registry *)

Section Registry.

Implicit Types (dic : list Operator.entry) (e : Operator.entry).
Implicit Types (op : Operator.t) (ops : list Operator.t).

Lemma find_entry_spec opLength dic k found :
  match Operator.find_entry opLength dic k found with
  | Some i =>
      (found = Some i ∧ ∀ e, e ∈ dic → Operator.symbolLength e ≠ opLength)
      ∨ (∃ e, k ≤ i ∧ dic !! (i - k) = Some e
              ∧ Operator.symbolLength e = opLength)
  | None => found = None ∧ ∀ e, e ∈ dic → Operator.symbolLength e ≠ opLength
  end.
Proof.
  revert k found.
  induction dic as [|e0 dic IH]; intros k found; cbn.
  - destruct found; [left|]; split; try done; by intros e ?%elem_of_nil.
  - specialize (IH (S k)
      (if Nat.eqb (Operator.symbolLength e0) opLength then Some k else found)).
    destruct (Operator.find_entry _ dic _ _) as [i|].
    + destruct IH as [[Hfound Hnone]|(e & Hle & Hlook & Hlen)].
      * destruct (Nat.eqb_spec (Operator.symbolLength e0) opLength) as [Heq|Hne].
        -- right. exists e0. injection Hfound as <-.
           by rewrite Nat.sub_diag.
        -- left. split; [done|]. intros e [->|Hin]%elem_of_cons; auto.
      * right. exists e. split; [lia|]. split; [|done].
        by replace (i - k) with (S (i - S k)) by lia.
    + destruct IH as [Hfound Hnone].
      destruct (Nat.eqb_spec (Operator.symbolLength e0) opLength) as [Heq|Hne];
        [done|].
      split; [done|]. intros e [->|Hin]%elem_of_cons; auto.
Qed.

Lemma find_entry_Some opLength dic i :
  Operator.find_entry opLength dic 0 None = Some i →
  ∃ e, dic !! i = Some e ∧ Operator.symbolLength e = opLength.
Proof.
  intros Hfind. pose proof (find_entry_spec opLength dic 0 None) as Hspec.
  rewrite Hfind in Hspec. destruct Hspec as [[? _]|(e & _ & Hlook & Hlen)]; [done|].
  exists e. by rewrite Nat.sub_0_r in Hlook.
Qed.

Lemma find_entry_None opLength dic :
  Operator.find_entry opLength dic 0 None = None →
  ∀ e, e ∈ dic → Operator.symbolLength e ≠ opLength.
Proof.
  intros Hfind. pose proof (find_entry_spec opLength dic 0 None) as Hspec.
  rewrite Hfind in Hspec. by destruct Hspec.
Qed.

Lemma insert_desc_Permutation e dic : Operator.insert_desc e dic ≡ₚ e :: dic.
Proof.
  induction dic as [|x dic IH]; cbn; [done|].
  destruct (Nat.leb _ _); [done|]. rewrite IH. apply Permutation_swap.
Qed.

Lemma sort_Permutation dic : Operator.sort dic ≡ₚ dic.
Proof.
  induction dic as [|x dic IH]; cbn; [done|].
  by rewrite insert_desc_Permutation, IH.
Qed.

Lemma insert_desc_sorted e dic :
  StronglySorted (λ a b : nat, b ≤ a) (Operator.symbolLength <$> dic) →
  StronglySorted (λ a b : nat, b ≤ a)
    (Operator.symbolLength <$> Operator.insert_desc e dic).
Proof.
  induction dic as [|x dic IH]; cbn; intros Hsorted.
  - repeat constructor.
  - apply StronglySorted_inv in Hsorted as [Hsorted Hall].
    destruct (Nat.leb_spec (Operator.symbolLength x) (Operator.symbolLength e))
      as [Hle|Hlt]; cbn.
    + constructor; [by constructor|].
      constructor; [done|]. eapply Forall_impl; [exact Hall|]. cbn. lia.
    + constructor; [by apply IH|].
      rewrite (insert_desc_Permutation e dic). cbn. constructor; [lia|done].
Qed.

Lemma sort_sorted dic :
  StronglySorted (λ a b : nat, b ≤ a)
    (Operator.symbolLength <$> Operator.sort dic).
Proof.
  induction dic as [|x dic IH]; cbn; [constructor|].
  by apply insert_desc_sorted.
Qed.


Lemma registry_nil : registry [] [].
Proof.
  split; cbn.
  - constructor.
  - constructor.
  - by intros e s op ?%elem_of_nil.
  - by intros op ?%elem_of_nil.
Qed.

(** A new, empty entry, once sorted in. *)
Lemma registry_new_entry ops dic opLength :
  registry ops dic →
  (∀ e, e ∈ dic → Operator.symbolLength e ≠ opLength) →
  registry ops
    (Operator.sort
       (dic ++ [{| Operator.symbolLength := opLength; Operator.opMap := ∅ |}])).
Proof.
  intros [Hsorted Hlengths Hsound Hcomplete] Hfresh.
  set (e0 := {| Operator.symbolLength := opLength; Operator.opMap := ∅ |}).
  split.
  - apply sort_sorted.
  - rewrite (sort_Permutation (dic ++ [e0])), fmap_app. cbn.
    rewrite <- Permutation_cons_append. constructor; [|done].
    intros (e & Heq & Hin)%list_elem_of_fmap. by eapply Hfresh.
  - intros e s op Hin Hlook.
    rewrite (sort_Permutation (dic ++ [e0])) in Hin.
    apply elem_of_app in Hin as [Hin| ->%list_elem_of_singleton]; [eauto|].
    cbn in Hlook. by rewrite lookup_empty in Hlook.
  - intros op (e & Hin & Hlook)%Hcomplete. exists e. split; [|done].
    rewrite (sort_Permutation (dic ++ [e0])). apply elem_of_app. by left.
Qed.

(** Step 3 of [register] on an entry of the right length. *)
Lemma registry_add_to_entry ops dic op i e dic' :
  registry ops dic →
  dic !! i = Some e →
  Operator.symbolLength e = String.length (Operator.symbol op) →
  Operator.add_to_entry op i dic = Normal dic' →
  registry (ops ++ [op]) dic'.
Proof.
  intros [Hsorted Hlengths Hsound Hcomplete] Hi Hlen.
  unfold Operator.add_to_entry. rewrite Hi.
  destruct (Operator.opMap e !! Operator.symbol op) as [|] eqn:Hfree; [done|].
  intros [= <-].
  set (e' := {| Operator.symbolLength := Operator.symbolLength e;
                Operator.opMap := <[Operator.symbol op := op]> (Operator.opMap e) |}).
  assert (Operator.symbolLength <$> <[i := e']> dic
          = Operator.symbolLength <$> dic) as Hsame.
  { rewrite list_fmap_insert. apply list_insert_id.
    by rewrite list_lookup_fmap, Hi. }
  assert (i < length dic) as Hbound by by eapply lookup_lt_Some.
  split.
  - by rewrite Hsame.
  - by rewrite Hsame.
  - intros e1 s op1 (j & Hj)%list_elem_of_lookup_1 Hlook.
    destruct (decide (i = j)) as [<-|Hne].
    + rewrite list_lookup_insert_eq in Hj by done. injection Hj as <-.
      cbn in Hlook. apply lookup_insert_Some in Hlook as [[<- <-]|[Hs Hlook]].
      * repeat split; [done|]. apply elem_of_app. right. by left.
      * destruct (Hsound e s op1) as (? & ? & ?); [by eapply list_elem_of_lookup_2|done|].
        repeat split; [done..|]. apply elem_of_app. by left.
    + rewrite list_lookup_insert_ne in Hj by done.
      destruct (Hsound e1 s op1) as (? & ? & ?); [by eapply list_elem_of_lookup_2|done|].
      repeat split; [done..|]. apply elem_of_app. by left.
  - intros op1 [Hin| ->%list_elem_of_singleton]%elem_of_app.
    + destruct (Hcomplete op1 Hin) as (e1 & (j & Hj)%list_elem_of_lookup_1 & Hlook).
      destruct (decide (i = j)) as [<-|Hne].
      * assert (e1 = e) as -> by congruence.
        exists e'. split.
        -- eapply list_elem_of_lookup_2. by apply list_lookup_insert_eq.
        -- cbn. rewrite lookup_insert_ne; [done|]. congruence.
      * exists e1. split; [|done].
        eapply list_elem_of_lookup_2. by rewrite list_lookup_insert_ne.
    + exists e'. split.
      * eapply list_elem_of_lookup_2. by apply list_lookup_insert_eq.
      * cbn. apply lookup_insert_eq.
Qed.

Lemma registry_register ops dic op dic' :
  registry ops dic →
  Operator.register op dic = Normal dic' →
  registry (ops ++ [op]) dic'.
Proof.
  intros Hreg. unfold Operator.register.
  destruct (Operator.find_entry _ dic 0 None) as [i|] eqn:Hfind.
  - apply find_entry_Some in Hfind as (e & Hi & Hlen).
    by eapply registry_add_to_entry.
  - pose proof (registry_new_entry ops dic _ Hreg (find_entry_None _ _ Hfind))
      as Hreg'.
    destruct (Operator.find_entry _ (Operator.sort _) 0 None) as [i|] eqn:Hfind';
      [|done].
    apply find_entry_Some in Hfind' as (e & Hi & Hlen).
    by eapply registry_add_to_entry.
Qed.

Lemma registry_register_all new ops dic dic' :
  registry ops dic →
  Operator.register_all new dic = Normal dic' →
  registry (ops ++ new) dic'.
Proof.
  revert ops dic.
  induction new as [|op new IH]; intros ops dic Hreg; cbn.
  - intros [= <-]. by rewrite app_nil_r.
  - destruct (Operator.register op dic) as [dic1|] eqn:Hone; [|done]. cbn.
    intros Hall. rewrite (assoc_L _ ops [op] new : ops ++ op :: new = (ops ++ [op]) ++ new).
    eapply IH; [|done]. by eapply registry_register.
Qed.

Lemma registry_builtins : registry Operator.builtins Operator.dictionary.
Proof. by apply (registry_register_all Operator.builtins [] [] _ registry_nil). Qed.


(** [parse_in] returns the operator found in the first entry, in the order
    of the dictionary, that fits in [expr] and holds the characters at
    [startIndex]. *)
Lemma parse_in_Some dic expr startIndex op :
  StronglySorted (λ a b : nat, b ≤ a) (Operator.symbolLength <$> dic) →
  Operator.parse_in dic expr startIndex = Some op →
  ∃ e, e ∈ dic
    ∧ startIndex + Operator.symbolLength e ≤ String.length expr
    ∧ Operator.opMap e
        !! JS.substring expr startIndex (startIndex + Operator.symbolLength e)
      = Some op
    ∧ ∀ e', e' ∈ dic →
        startIndex + Operator.symbolLength e' ≤ String.length expr →
        is_Some (Operator.opMap e'
                   !! JS.substring expr startIndex
                        (startIndex + Operator.symbolLength e')) →
        Operator.symbolLength e' ≤ Operator.symbolLength e.
Proof.
  induction dic as [|e0 dic IH]; cbn [Operator.parse_in fmap list_fmap];
    [done|]. intros Hsorted Hparse.
  apply StronglySorted_inv in Hsorted as [Hsorted Hall].
  destruct (Nat.ltb_spec (String.length expr)
              (startIndex + Operator.symbolLength e0)) as [Hlong|Hfits].
  - destruct (IH Hsorted Hparse) as (e & Hin & Hfit & Hlook & Hmax).
    exists e. split; [by right|]. split; [done|]. split; [done|].
    intros e' [->|Hin']%elem_of_cons; [lia|eauto].
  - destruct (Operator.opMap e0 !! _) as [op0|] eqn:Hlook0.
    + injection Hparse as ->.
      exists e0. split; [by left|]. split; [done|]. split; [done|].
      intros e' [->|Hin']%elem_of_cons; [done|]. intros _ _.
      rewrite Forall_forall in Hall. apply Hall.
      apply list_elem_of_fmap. by exists e'.
    + destruct (IH Hsorted Hparse) as (e & Hin & Hfit & Hlook & Hmax).
      exists e. split; [by right|]. split; [done|]. split; [done|].
      intros e' [->|Hin']%elem_of_cons; [|eauto].
      intros _ [? Hsome]. by rewrite Hlook0 in Hsome.
Qed.

Lemma parse_in_None dic expr startIndex :
  Operator.parse_in dic expr startIndex = None ↔
  ∀ e, e ∈ dic →
    startIndex + Operator.symbolLength e ≤ String.length expr →
    Operator.opMap e
      !! JS.substring expr startIndex (startIndex + Operator.symbolLength e)
    = None.
Proof.
  induction dic as [|e0 dic IH]; cbn [Operator.parse_in].
  - split; [|done]. by intros _ e ?%elem_of_nil.
  - destruct (Nat.ltb_spec (String.length expr)
                (startIndex + Operator.symbolLength e0)) as [Hlong|Hfits].
    + rewrite IH. split.
      * intros Hall e [->|Hin]%elem_of_cons; [lia|eauto].
      * intros Hall e Hin. apply Hall. by right.
    + destruct (Operator.opMap e0 !! _) as [op0|] eqn:Hlook0.
      * split; [done|]. intros Hall.
        specialize (Hall e0 (list_elem_of_here _ _) Hfits). congruence.
      * rewrite IH. split.
        -- intros Hall e [->|Hin]%elem_of_cons; eauto.
        -- intros Hall e Hin. apply Hall. by right.
Qed.

(** No two registered operators share a symbol. *)
Lemma registry_unique ops dic op1 op2 :
  registry ops dic →
  op1 ∈ ops → op2 ∈ ops →
  Operator.symbol op1 = Operator.symbol op2 → op1 = op2.
Proof.
  intros [Hsorted Hlengths Hsound Hcomplete] Hin1 Hin2 Hsym.
  destruct (Hcomplete op1 Hin1) as (e1 & He1 & Hlook1).
  destruct (Hcomplete op2 Hin2) as (e2 & He2 & Hlook2).
  destruct (Hsound e1 _ op1 He1 Hlook1) as (_ & Hlen1 & _).
  destruct (Hsound e2 _ op2 He2 Hlook2) as (_ & Hlen2 & _).
  apply list_elem_of_lookup_1 in He1 as [i Hi], He2 as [j Hj].
  assert (i = j) as <-.
  { eapply NoDup_lookup; [exact Hlengths|..];
      rewrite list_lookup_fmap; [by rewrite Hi|rewrite Hj]; cbn.
    congruence. }
  assert (e2 = e1) as -> by congruence.
  rewrite Hsym in Hlook1. congruence.
Qed.

(** Longest match, for any state of the dictionary reached by
    registrations. *)
Lemma parse_in_longest ops dic expr startIndex :
  registry ops dic →
  (∀ op,
     Operator.parse_in dic expr startIndex = Some op ↔
     op ∈ ops
     ∧ stands_at (Operator.symbol op) expr startIndex
     ∧ ∀ op', op' ∈ ops → stands_at (Operator.symbol op') expr startIndex →
         String.length (Operator.symbol op')
         ≤ String.length (Operator.symbol op))
  ∧ (Operator.parse_in dic expr startIndex = None ↔
     ∀ op, op ∈ ops → ¬ stands_at (Operator.symbol op) expr startIndex).
Proof.
  intros Hreg.
  assert (∀ op, Operator.parse_in dic expr startIndex = Some op →
    op ∈ ops
    ∧ stands_at (Operator.symbol op) expr startIndex
    ∧ ∀ op', op' ∈ ops → stands_at (Operator.symbol op') expr startIndex →
        String.length (Operator.symbol op')
        ≤ String.length (Operator.symbol op)) as Hsome.
  { intros op Hparse.
    destruct (parse_in_Some _ _ _ _ (registry_sorted _ _ Hreg) Hparse)
      as (e & Hin & Hfit & Hlook & Hmax).
    destruct (registry_sound _ _ Hreg e _ op Hin Hlook) as (Hsym & Hlen & Hop).
    split; [done|]. split.
    - unfold stands_at. rewrite Hsym, Hlen. by rewrite <- Hsym at 2.
    - intros op' Hop' [Hfit' Hsub'].
      destruct (registry_complete _ _ Hreg op' Hop') as (e' & Hin' & Hlook').
      destruct (registry_sound _ _ Hreg e' _ op' Hin' Hlook') as (_ & Hlen' & _).
      rewrite Hsym, Hlen, Hlen'. apply Hmax; [done|lia|].
      rewrite <- Hlen', Hsub'. by eexists. }
  assert (Operator.parse_in dic expr startIndex = None ↔
    ∀ op, op ∈ ops → ¬ stands_at (Operator.symbol op) expr startIndex)
    as Hnone.
  { rewrite parse_in_None. split.
    - intros Hall op Hop [Hfit Hsub].
      destruct (registry_complete _ _ Hreg op Hop) as (e & Hin & Hlook).
      destruct (registry_sound _ _ Hreg e _ op Hin Hlook) as (_ & Hlen & _).
      specialize (Hall e Hin). rewrite <- Hlen, Hsub, Hlook in Hall.
      by discriminate Hall.
    - intros Hall e Hin Hfit.
      destruct (Operator.opMap e !! _) as [op|] eqn:Hlook; [|done].
      destruct (registry_sound _ _ Hreg e _ op Hin Hlook) as (Hsym & Hlen & Hop).
      destruct (Hall op Hop). unfold stands_at.
      rewrite Hsym, Hlen. by rewrite <- Hsym at 2. }
  split; [|done].
  intros op. split; [apply Hsome|].
  intros (Hop & Hstands & Hmax).
  destruct (Operator.parse_in dic expr startIndex) as [op0|] eqn:Hparse.
  - destruct (Hsome op0 eq_refl) as (Hop0 & Hstands0 & Hmax0).
    f_equal. eapply registry_unique; [done..|].
    assert (String.length (Operator.symbol op0)
            = String.length (Operator.symbol op)) as Hlen.
    { apply Nat.le_antisymm; auto. }
    destruct Hstands as [_ <-], Hstands0 as [_ <-]. by rewrite Hlen.
  - destruct (proj1 Hnone eq_refl op Hop Hstands).
Qed.

End Registry.


(** C7. [Operator.parse] returns the registered operator whose symbol is
    the longest that stands at the position, and nothing exactly when no
    registered symbol stands there; so in ["2**3"] position 1 is read as
    [**], not [*], and the tokens are [2], [**], [3]. *)
Theorem C7_longest_match :
  (∀ expr startIndex op,
     Operator.parse expr startIndex = Some op ↔
     op ∈ Operator.builtins
     ∧ stands_at (Operator.symbol op) expr startIndex
     ∧ ∀ op', op' ∈ Operator.builtins →
         stands_at (Operator.symbol op') expr startIndex →
         String.length (Operator.symbol op')
         ≤ String.length (Operator.symbol op))
  ∧ (∀ expr startIndex,
       Operator.parse expr startIndex = None ↔
       ∀ op, op ∈ Operator.builtins →
         ¬ stands_at (Operator.symbol op) expr startIndex)
  ∧ stands_at (Operator.symbol Operator.mul) "2**3" 1
  ∧ Operator.parse "2**3" 1 = Some Operator.pow
  ∧ Tokenizer.tokenize "2**3"
    = Some (Normal [TNumber 2; TOperator Operator.pow; TNumber 3]).
Proof.
  split; [|split].
  - intros expr startIndex.
    apply (parse_in_longest _ _ expr startIndex registry_builtins).
  - intros expr startIndex.
    apply (parse_in_longest _ _ expr startIndex registry_builtins).
  - split; [split; [cbn; lia|reflexivity]|]. split; reflexivity.
Qed.

(** ** Properties of the tokenizer *)

(** *** The bounded loops *)

(** The bound given to the loop of [readNumber] is never what stops it:
    any bound that covers the characters left gives the same result. *)
Lemma readNumber_loop_steps steps steps' expr i decimalMark :
  String.length expr - i ≤ steps →
  String.length expr - i ≤ steps' →
  Tokenizer.readNumber_loop steps expr i decimalMark
  = Tokenizer.readNumber_loop steps' expr i decimalMark.
Proof.
  revert steps' i decimalMark.
  induction steps as [|steps IH]; intros [|steps'] i decimalMark Hs Hs';
    cbn [Tokenizer.readNumber_loop]; try done;
    destruct (Nat.ltb_spec i (String.length expr)); try done; try lia.
  destruct (JS.code_eq _ _).
  - destruct (Nat.eqb decimalMark 1); [done|]. apply IH; lia.
  - destruct (_ || _); [done|]. apply IH; lia.
Qed.

(** Likewise for the loop of [readFunction]. *)
Lemma readFunction_loop_steps steps steps' expr i :
  String.length expr - i ≤ steps →
  String.length expr - i ≤ steps' →
  Tokenizer.readFunction_loop steps expr i
  = Tokenizer.readFunction_loop steps' expr i.
Proof.
  revert steps' i.
  induction steps as [|steps IH]; intros [|steps'] i Hs Hs';
    cbn [Tokenizer.readFunction_loop]; try done;
    destruct (Nat.ltb_spec i (String.length expr)); try done; try lia.
  destruct (negb _); [done|]. apply IH; lia.
Qed.

(** *** Progress of the recognizers *)

Lemma builtins_symbol op :
  op ∈ Operator.builtins → 1 ≤ String.length (Operator.symbol op).
Proof.
  unfold Operator.builtins. intros Hin.
  repeat (apply elem_of_cons in Hin as [->|Hin]; [cbn; lia|]).
  by apply elem_of_nil in Hin.
Qed.

Lemma parse_progress expr startIndex op :
  Operator.parse expr startIndex = Some op →
  1 ≤ String.length (Operator.symbol op).
Proof.
  intros Hparse. apply builtins_symbol.
  by apply (proj1 (parse_in_longest _ _ expr startIndex registry_builtins))
    in Hparse as [Hin _].
Qed.

Lemma readNumber_progress expr index info :
  Tokenizer.readNumber expr index = Normal (Some info) → 1 ≤ charsRead info.
Proof.
  unfold Tokenizer.readNumber.
  destruct (Tokenizer.readNumber_loop _ expr index 0) as [i decimalMark].
  destruct (Nat.eqb_spec (i - index - decimalMark) 0) as [|Hne]; [done|].
  cbn. intros [= <-]. cbn. lia.
Qed.

Lemma readFunction_loop_ge steps expr i :
  i ≤ Tokenizer.readFunction_loop steps expr i.
Proof.
  revert i.
  induction steps as [|steps IH]; intros i;
    cbn [Tokenizer.readFunction_loop]; [done|].
  destruct (Nat.ltb i (String.length expr)); [|done].
  destruct (negb _); [done|]. specialize (IH (S i)). lia.
Qed.

Lemma readFunction_by_progress cut expr index info :
  Tokenizer.readFunction_by cut expr index = Normal (Some info) →
  1 ≤ charsRead info.
Proof.
  unfold Tokenizer.readFunction_by.
  destruct (negb _); [done|].
  destruct (FunctionMap !! _); [|done].
  cbn. intros [= <-]. cbn.
  pose proof (readFunction_loop_ge (String.length expr - (index + 1)) expr
                (index + 1)). lia.
Qed.

Section Progress.

Variable readFunction : string → nat → completion (option ParseInfo).
Hypothesis readFunction_progress : ∀ expr index info,
  readFunction expr index = Normal (Some info) → 1 ≤ charsRead info.

Lemma readToken_by_progress expr index info :
  Tokenizer.readToken_by readFunction expr index = Normal (Some info) →
  1 ≤ charsRead info.
Proof.
  unfold Tokenizer.readToken_by.
  destruct (Tokenizer.readNumber expr index) as [[number|]|] eqn:Hnumber;
    cbn; [|idtac|done].
  { intros [= <-]. by eapply readNumber_progress. }
  destruct (Operator.parse expr index) as [op|] eqn:Hparse; cbn.
  { intros [= <-]. cbn. by eapply parse_progress. }
  destruct (_ || _).
  { repeat destruct (String.eqb _ _); cbn; try done; by intros [= <-]. }
  destruct (readFunction expr index) as [[name|]|] eqn:Hname; cbn; [|done..].
  intros [= <-]. by eapply readFunction_progress.
Qed.

(** With a step for every character left and one more, the loop of
    [tokenize] ends, and more steps change nothing. *)
Lemma tokenize_loop_ends expr n : ∀ i tokenList,
  String.length expr - i ≤ n →
  ∃ r, ∀ steps, String.length expr - i < steps →
    Tokenizer.tokenize_loop readFunction steps expr i tokenList = Some r.
Proof.
  induction n as [|n IH]; intros i tokenList Hleft.
  - exists (Normal tokenList). intros [|steps] Hsteps; [lia|].
    cbn [Tokenizer.tokenize_loop].
    destruct (Nat.ltb_spec i (String.length expr)); [lia|done].
  - destruct (Nat.ltb_spec i (String.length expr)) as [Hin|Hout].
    + destruct (JS.code_eq (JS.charCodeAt expr i) (JS.charCodeAt " " 0)
                || JS.code_eq (JS.charCodeAt expr i)
                     (JS.charCodeAt (String "010" "") 0)
                || JS.code_eq (JS.charCodeAt expr i)
                     (JS.charCodeAt (String "013" "") 0)
                || JS.code_eq (JS.charCodeAt expr i)
                     (JS.charCodeAt (String "009" "") 0)) eqn:Hspace.
      * destruct (IH (S i) tokenList) as [r Hr]; [lia|].
        exists r. intros [|steps] Hsteps; [lia|].
        cbn [Tokenizer.tokenize_loop].
        destruct (Nat.ltb_spec i (String.length expr)); [|lia].
        rewrite Hspace. apply Hr. lia.
      * destruct (Tokenizer.readToken_by readFunction expr i)
          as [[info|]|e] eqn:Hread.
        -- pose proof (readToken_by_progress _ _ _ Hread) as Hprogress.
           destruct (IH (i + charsRead info) (tokenList ++ [info_token info]))
             as [r Hr]; [lia|].
           exists r. intros [|steps] Hsteps; [lia|].
           cbn [Tokenizer.tokenize_loop].
           destruct (Nat.ltb_spec i (String.length expr)); [|lia].
           rewrite Hspace, Hread. apply Hr. lia.
        -- eexists. intros [|steps] Hsteps; [lia|].
           cbn [Tokenizer.tokenize_loop].
           destruct (Nat.ltb_spec i (String.length expr)); [|lia].
           by rewrite Hspace, Hread.
        -- eexists. intros [|steps] Hsteps; [lia|].
           cbn [Tokenizer.tokenize_loop].
           destruct (Nat.ltb_spec i (String.length expr)); [|lia].
           by rewrite Hspace, Hread.
    + exists (Normal tokenList). intros [|steps] Hsteps; [lia|].
      cbn [Tokenizer.tokenize_loop].
      destruct (Nat.ltb_spec i (String.length expr)); [lia|done].
Qed.

End Progress.

(** What one round of the loop of [tokenize] does at a position inside
    the string: skip a character, take a token of one character or more,
    or throw. *)
Lemma tokenize_loop_round readFunction steps expr i tokenList :
  (∀ expr index info,
     readFunction expr index = Normal (Some info) → 1 ≤ charsRead info) →
  i < String.length expr →
  Tokenizer.tokenize_loop readFunction (S steps) expr i tokenList
  = Tokenizer.tokenize_loop readFunction steps expr (S i) tokenList
  ∨ (∃ info, 1 ≤ charsRead info
       ∧ Tokenizer.tokenize_loop readFunction (S steps) expr i tokenList
         = Tokenizer.tokenize_loop readFunction steps expr
             (i + charsRead info) (tokenList ++ [info_token info]))
  ∨ (∃ e, Tokenizer.tokenize_loop readFunction (S steps) expr i tokenList
          = Some (Throw e)).
Proof.
  intros Hprogress Hin. cbn [Tokenizer.tokenize_loop].
  destruct (Nat.ltb_spec i (String.length expr)); [|lia].
  destruct (_ || _); [by left|]. right.
  destruct (Tokenizer.readToken_by readFunction expr i) as [[info|]|e]
    eqn:Hread.
  - left. exists info. split; [|done]. by eapply readToken_by_progress.
  - right. by eexists.
  - right. by eexists.
Qed.

(** C10. Every recognizer that succeeds takes one character or more: the
    number, the operator, the single character and the function name, so
    [readToken] as a whole; each round of the loop of [tokenize] inside
    the string skips one character, moves on by the characters of a
    token, or throws; and [tokenize] ends on every string, within one
    step per character and one more, whatever the budget beyond that. *)
Theorem C10_tokenize_terminates :
  (∀ expr index info,
     Tokenizer.readNumber expr index = Normal (Some info) →
     1 ≤ charsRead info)
  ∧ (∀ expr index op,
       Operator.parse expr index = Some op →
       1 ≤ String.length (Operator.symbol op))
  ∧ (∀ expr index info,
       Tokenizer.readFunction expr index = Normal (Some info) →
       1 ≤ charsRead info)
  ∧ (∀ expr index info,
       Tokenizer.readToken expr index = Normal (Some info) →
       1 ≤ charsRead info)
  ∧ (∀ steps expr i tokenList,
       i < String.length expr →
       Tokenizer.tokenize_loop Tokenizer.readFunction (S steps) expr i tokenList
       = Tokenizer.tokenize_loop Tokenizer.readFunction steps expr (S i)
           tokenList
       ∨ (∃ info, 1 ≤ charsRead info
            ∧ Tokenizer.tokenize_loop Tokenizer.readFunction (S steps) expr i
                tokenList
              = Tokenizer.tokenize_loop Tokenizer.readFunction steps expr
                  (i + charsRead info) (tokenList ++ [info_token info]))
       ∨ (∃ e, Tokenizer.tokenize_loop Tokenizer.readFunction (S steps) expr i
                 tokenList
               = Some (Throw e)))
  ∧ (∀ expr, ∃ r,
       Tokenizer.tokenize expr = Some r
       ∧ ∀ steps, String.length expr < steps →
           Tokenizer.tokenize_loop Tokenizer.readFunction steps expr 0 []
           = Some r).
Proof.
  split; [exact readNumber_progress|].
  split; [exact parse_progress|].
  split; [exact (readFunction_by_progress JS.substr)|].
  split; [exact (readToken_by_progress _ (readFunction_by_progress JS.substr))|].
  split.
  - intros steps expr i tokenList.
    apply tokenize_loop_round, readFunction_by_progress.
  - intros expr.
    destruct (tokenize_loop_ends _ (readFunction_by_progress JS.substr) expr
                (String.length expr) 0 []) as [r Hr]; [lia|].
    exists r. split; [|intros steps Hsteps; apply Hr; lia].
    apply Hr. lia.
Qed.

Lemma C10_tokenize_terminates_witness :
  1 ≤ charsRead {| info_token := TNumber 2; charsRead := 3 |}
  ∧ 1 ≤ String.length (Operator.symbol Operator.pow)
  ∧ 1 ≤ charsRead {| info_token := TFunction floor; charsRead := 5 |}.
Proof.
  split; [|split].
  - exact (proj1 C10_tokenize_terminates "2.5+1" 0 _ eq_refl).
  - exact (proj1 (proj2 C10_tokenize_terminates) "2**3" 1 _ eq_refl).
  - exact (proj1 (proj2 (proj2 C10_tokenize_terminates)) "floor(2.7)" 0 _
             eq_refl).
Defined.

(** *** Function names *)

(** Where the loop of [readFunction] stops: past a run of letters and
    digits that nothing can extend. *)
Lemma readFunction_loop_stop steps expr i :
  String.length expr - i ≤ steps →
  i ≤ String.length expr →
  i ≤ Tokenizer.readFunction_loop steps expr i ≤ String.length expr
  ∧ (∀ j, i ≤ j < Tokenizer.readFunction_loop steps expr i →
       Tokenizer.isAlphaNumeric expr j = true)
  ∧ (Tokenizer.readFunction_loop steps expr i < String.length expr →
     Tokenizer.isAlphaNumeric expr (Tokenizer.readFunction_loop steps expr i)
     = false).
Proof.
  revert i.
  induction steps as [|steps IH]; intros i Hsteps Hi;
    cbn [Tokenizer.readFunction_loop].
  - split; [lia|]. split; intros; lia.
  - destruct (Nat.ltb_spec i (String.length expr)) as [Hin|Hout].
    + destruct (Tokenizer.isAlphaNumeric expr i) eqn:Hchar; cbn [negb].
      * destruct (IH (S i)) as (Hbounds & Hrun & Hstop); [lia..|].
        split; [lia|]. split; [|done].
        intros j Hj. destruct (decide (j = i)) as [->|]; [done|].
        apply Hrun. lia.
      * split; [lia|]. split; [intros; lia|done].
    + split; [lia|]. split; intros; lia.
Qed.

Lemma get_inside expr index c :
  String.get index expr = Some c → index < String.length expr.
Proof.
  revert index.
  induction expr as [|c' expr IH]; intros [|index]; cbn; try done; [lia|].
  intros Hget%IH. lia.
Qed.

Lemma isAlphabetic_inside expr index :
  Tokenizer.isAlphabetic expr index = true → index < String.length expr.
Proof.
  unfold Tokenizer.isAlphabetic, JS.charCodeAt. intros Hletter.
  destruct (String.get index expr) as [c|] eqn:Hget; [|done].
  by eapply get_inside.
Qed.

(** The recognizer of the compiled artifact: it reads the letter at
    [index] and the letters and digits after it, as far as they go, and
    answers with the function of that name if there is one. *)
Lemma compiled_readFunction_spec expr index :
  let stop :=
    Tokenizer.readFunction_loop (String.length expr - (index + 1)) expr
      (index + 1) in
  (Tokenizer.isAlphabetic expr index = false →
   Compiled.readFunction expr index = Normal None)
  ∧ (Tokenizer.isAlphabetic expr index = true →
     index < stop ≤ String.length expr
     ∧ (∀ j, index < j < stop → Tokenizer.isAlphaNumeric expr j = true)
     ∧ (stop < String.length expr → Tokenizer.isAlphaNumeric expr stop = false)
     ∧ Compiled.readFunction expr index
       = match FunctionMap !! identifier expr index with
         | Some f =>
             Normal (Some {| info_token := TFunction f;
                             charsRead := stop - index |})
         | None => Normal None
         end).
Proof.
  intros stop. unfold Compiled.readFunction, Tokenizer.readFunction_by.
  split; intros Hletter; rewrite Hletter; [done|]. cbn [negb].
  apply isAlphabetic_inside in Hletter.
  destruct (readFunction_loop_stop (String.length expr - (index + 1)) expr
              (index + 1)) as (Hbounds & Hrun & Hstop); [lia..|].
  fold stop in Hbounds, Hrun, Hstop.
  split; [lia|]. split; [intros j Hj; apply Hrun; lia|]. split; [done|].
  unfold identifier. fold stop. by destruct (FunctionMap !! _).
Qed.

(** C6. ["max(3,5)"] evaluates to 5 and ["floor(2.7)"] to 2, where the
    name starts the string.  Further in, the recognizer of Tokenizer.ts
    fails on a registered name: in ["1+max(3,5)"] at position 2 the
    identifier read is [max], but the name looked up is the five
    characters [max(3], cut by [substr] with the end position for a length;
    no function is found, and [tokenize] rejects the [m].  The compiled
    artifact cuts with [substring] and finds [max]. *)
Theorem C6_function_name_recognizer :
  calculate "max(3,5)" = Some (Normal 5%float)
  ∧ calculate "floor(2.7)" = Some (Normal 2%float)
  ∧ identifier "1+max(3,5)" 2 = "max"
  ∧ FunctionMap !! "max" = Some max
  ∧ JS.substr "1+max(3,5)" 2 5 = "max(3"
  ∧ Tokenizer.readFunction "1+max(3,5)" 2 = Normal None
  ∧ Compiled.readFunction "1+max(3,5)" 2
    = Normal (Some {| info_token := TFunction max; charsRead := 3 |})
  ∧ Tokenizer.tokenize "1+max(3,5)"
    = Some (Throw (Error "Unexpected token or symbol: 'm'.")).
Proof. repeat split; reflexivity. Qed.

(** *** Source and compiled artifact *)

Lemma substring_clip s n :
  String.substring 0 n s = String.substring 0 (Nat.min n (String.length s)) s.
Proof.
  revert n. induction s as [|c s IH]; intros [|n]; cbn; try done.
  by rewrite <- IH.
Qed.

(** At the start of the string the two cuts agree, and so do the two
    recognizers. *)
Lemma readFunction_at_start expr :
  Tokenizer.readFunction expr 0 = Compiled.readFunction expr 0.
Proof.
  unfold Tokenizer.readFunction, Compiled.readFunction,
    Tokenizer.readFunction_by.
  destruct (negb _); [done|].
  assert (∀ i, JS.substr expr 0 i = JS.substring expr 0 i) as ->; [|done].
  intros i. unfold JS.substr, JS.substring.
  rewrite Nat.min_0_l, Nat.max_0_l, Nat.sub_0_r. apply substring_clip.
Qed.

(** C5. The sources and the compiled artifact do not tokenize alike:
    on ["2*max(3,5)"] Tokenizer.ts throws and shunting_yard.js returns
    eight tokens. *)
Theorem C5_source_and_artifact_differ :
  Tokenizer.tokenize "2*max(3,5)"
  = Some (Throw (Error "Unexpected token or symbol: 'm'."))
  ∧ Compiled.tokenize "2*max(3,5)"
    = Some (Normal [TNumber 2; TOperator Operator.mul; TFunction max;
                    TLeftParenthesis; TNumber 3; TArgumentSeparator;
                    TNumber 5; TRightParenthesis])
  ∧ calculate "2*max(3,5)"
    = Some (Throw (Error "Unexpected token or symbol: 'm'."))
  ∧ calculate_by Compiled.tokenize "2*max(3,5)" = Some (Normal 10%float).
Proof. repeat split; reflexivity. Qed.

(** ** Properties of the tree builder *)

(** *** The loops of [create] and [popOperator] *)

(** Each loop of [create] that pops does so through [popOperator]; the
    recursions of the embedding unfold to those calls. *)
Lemma rightParenthesis_round top opStack exprStack :
  type top ≠ LeftParenthesis →
  AST.rightParenthesis (top :: opStack) exprStack
  = ('(opStack', exprStack') ← AST.popOperator (top :: opStack) exprStack;
     AST.rightParenthesis opStack' exprStack').
Proof.
  intros Htop. cbn [AST.rightParenthesis AST.popOperator].
  rewrite bool_decide_eq_false_2 by done.
  by destruct (AST.reduce top exprStack).
Qed.

Lemma operator_round op next opStack exprStack :
  (Operator.isLeftAssociative op
   && (Operator.precedence next <? Operator.precedence op)%Z) = false →
  (negb (Operator.isLeftAssociative op)
   && (Operator.precedence next <=? Operator.precedence op)%Z) = false →
  AST.operator op (TOperator next :: opStack) exprStack
  = ('(opStack', exprStack') ←
       AST.popOperator (TOperator next :: opStack) exprStack;
     AST.operator op opStack' exprStack').
Proof.
  intros Hleft Hright. cbn [AST.operator AST.popOperator].
  rewrite Hleft, Hright.
  by destruct (AST.reduce (TOperator next) exprStack).
Qed.

Lemma remaining_round next opStack exprStack :
  type next ≠ LeftParenthesis →
  AST.remaining (next :: opStack) exprStack
  = ('(opStack', exprStack') ← AST.popOperator (next :: opStack) exprStack;
     AST.remaining opStack' exprStack').
Proof.
  intros Hnext. cbn [AST.remaining AST.popOperator].
  rewrite bool_decide_eq_false_2 by done.
  by destruct (AST.reduce next exprStack).
Qed.

(** *** Precedence and parentheses *)

(** A right parenthesis whose left parenthesis lies at the bottom of
    [opStack] is fatal: once the tokens above are reduced and the
    parenthesis popped, the type of the top of an empty stack is read. *)
Lemma rightParenthesis_bottom above exprStack exprStack' :
  TLeftParenthesis ∉ above →
  reduce_all above exprStack = Normal exprStack' →
  AST.rightParenthesis (above ++ [TLeftParenthesis]) exprStack
  = Throw (UndefinedAccess "type").
Proof.
  revert exprStack.
  induction above as [|top above IH]; intros exprStack Hnot Hred; [done|].
  apply not_elem_of_cons in Hnot as [Hne Hnot].
  cbn [app AST.rightParenthesis].
  destruct top; try done; cbn in Hred |- *;
    destruct (AST.reduce _ exprStack) as [exprStack1|]; try done;
    cbn in Hred |- *; by apply IH.
Qed.

(** C1. ["2+3*4"] evaluates to 14, but ["(2+3)*4"] does not evaluate to
    20: no token is left under its left parenthesis, so the look at the
    new top of the stack, after the parenthesis is discarded, reads a
    property of [undefined], and [create] ends in the engine's TypeError. *)
Theorem C1_precedence_and_leading_parenthesis :
  calculate "2+3*4" = Some (Normal 14%float)
  ∧ calculate "(2+3)*4" = Some (Throw (UndefinedAccess "type"))
  ∧ AST.rightParenthesis
      [TOperator Operator.add; TLeftParenthesis] [leaf 3; leaf 2]
    = Throw (UndefinedAccess "type").
Proof. repeat split; reflexivity. Qed.

(** *** Associativity *)

(** The rule of [Case 4]: the operator on top is popped exactly when the
    incoming one is left-associative and binds no tighter, or
    right-associative and binds less tightly. *)
Lemma operator_pops op next opStack exprStack :
  let pops :=
    if Operator.isLeftAssociative op
    then (Operator.precedence op ≤ Operator.precedence next)%Z
    else (Operator.precedence op < Operator.precedence next)%Z in
  (pops
   ∧ AST.operator op (TOperator next :: opStack) exprStack
     = ('(opStack', exprStack') ←
          AST.popOperator (TOperator next :: opStack) exprStack;
        AST.operator op opStack' exprStack'))
  ∨ (¬ pops
     ∧ AST.operator op (TOperator next :: opStack) exprStack
       = Normal (TOperator next :: opStack, exprStack)).
Proof.
  destruct (Operator.isLeftAssociative op
            && (Operator.precedence next <? Operator.precedence op)%Z)
    eqn:Hleft.
  { right. cbn [AST.operator]. rewrite Hleft. split; [|done].
    destruct (Operator.isLeftAssociative op); cbn in Hleft |- *; [lia|done]. }
  destruct (negb (Operator.isLeftAssociative op)
            && (Operator.precedence next <=? Operator.precedence op)%Z)
    eqn:Hright.
  { right. cbn [AST.operator]. rewrite Hleft, Hright. split; [|done].
    destruct (Operator.isLeftAssociative op); cbn in Hright |- *; [done|lia]. }
  left. split; [|by apply operator_round].
  destruct (Operator.isLeftAssociative op); cbn in Hleft, Hright |- *; lia.
Qed.

(** C8. ["2-3-4"] is parsed as [(2-3)-4] and evaluates to -5;
    ["2**3**2"] is parsed as [2**(3**2)] and evaluates to 512. *)
Theorem C8_associativity :
  (Tokenizer.tokenize "2-3-4"
   = Some (Normal [TNumber 2; TOperator Operator.sub; TNumber 3;
                   TOperator Operator.sub; TNumber 4])
   ∧ AST.create [TNumber 2; TOperator Operator.sub; TNumber 3;
                 TOperator Operator.sub; TNumber 4]
     = Normal (Some (node (TOperator Operator.sub)
                       [node (TOperator Operator.sub) [leaf 2; leaf 3];
                        leaf 4]))
   ∧ calculate "2-3-4" = Some (Normal (-5)%float))
  ∧ (Tokenizer.tokenize "2**3**2"
     = Some (Normal [TNumber 2; TOperator Operator.pow; TNumber 3;
                     TOperator Operator.pow; TNumber 2])
     ∧ AST.create [TNumber 2; TOperator Operator.pow; TNumber 3;
                   TOperator Operator.pow; TNumber 2]
       = Normal (Some (node (TOperator Operator.pow)
                         [leaf 2;
                          node (TOperator Operator.pow) [leaf 3; leaf 2]]))
     ∧ calculate "2**3**2" = Some (Normal 512%float)).
Proof. repeat split; reflexivity. Qed.

(** *** Argument separators *)

(** What the separator case does when a left parenthesis is on the stack:
    every token above it becomes a node without children, unreduced. *)
Lemma argumentSeparator_under above below exprStack :
  TLeftParenthesis ∉ above →
  AST.argumentSeparator (above ++ TLeftParenthesis :: below) exprStack
  = Normal (TLeftParenthesis :: below,
            (rev (bare <$> above) ++ exprStack)%list).
Proof.
  revert exprStack.
  induction above as [|top above IH]; intros exprStack Hnot; [done|].
  apply not_elem_of_cons in Hnot as [Hne Hnot].
  cbn [app AST.argumentSeparator fmap list_fmap rev].
  rewrite <- app_assoc. cbn [app].
  destruct top; try done; cbn; by rewrite IH.
Qed.

(** And when none is: the type of the top of an empty stack is read. *)
Lemma argumentSeparator_outside opStack exprStack :
  TLeftParenthesis ∉ opStack →
  AST.argumentSeparator opStack exprStack = Throw (UndefinedAccess "type").
Proof.
  revert exprStack.
  induction opStack as [|top opStack IH]; intros exprStack Hnot; [done|].
  apply not_elem_of_cons in Hnot as [Hne Hnot].
  destruct top; try done; cbn; by apply IH.
Qed.

(** C2. The separator case does not reduce: in ["max(1+2,3)"] the [+]
    above the parenthesis is pushed as a node without children, its
    operands left on the stack, and the tree returned cannot be evaluated.
    On ["1,2"] no MisplacedSeparator error is thrown: [create] ends in
    the engine's TypeError. *)
Theorem C2_argument_separator :
  Tokenizer.tokenize "max(1+2,3)"
  = Some (Normal [TFunction max; TLeftParenthesis; TNumber 1;
                  TOperator Operator.add; TNumber 2; TArgumentSeparator;
                  TNumber 3; TRightParenthesis])
  ∧ AST.argumentSeparator
      [TOperator Operator.add; TLeftParenthesis; TFunction max]
      [leaf 2; leaf 1]
    = Normal ([TLeftParenthesis; TFunction max],
              [bare (TOperator Operator.add); leaf 2; leaf 1])
  ∧ AST.create [TFunction max; TLeftParenthesis; TNumber 1;
                TOperator Operator.add; TNumber 2; TArgumentSeparator;
                TNumber 3; TRightParenthesis]
    = Normal (Some (node (TFunction max)
                      [bare (TOperator Operator.add); leaf 3]))
  ∧ calculate "max(1+2,3)" = Some (Throw (UndefinedAccess "map"))
  ∧ Tokenizer.tokenize "1,2"
    = Some (Normal [TNumber 1; TArgumentSeparator; TNumber 2])
  ∧ AST.create [TNumber 1; TArgumentSeparator; TNumber 2]
    = Throw (UndefinedAccess "type").
Proof. repeat split; reflexivity. Qed.

(** *** The invariant of the tree *)

Lemma reduce_well_formed token exprStack exprStack' :
  Forall well_formed exprStack →
  AST.reduce token exprStack = Normal exprStack' →
  Forall well_formed exprStack'.
Proof.
  intros Hall. unfold AST.reduce.
  destruct (negb _ && negb _) eqn:Htype; [done|].
  destruct (value_length token) as [argCount|] eqn:Harity; [|done].
  destruct (Nat.ltb_spec (length exprStack) argCount) as [|Henough]; [done|].
  intros [= <-]. constructor; [|by apply Forall_drop].
  assert (Is_true (Nat.eqb (length (rev (take argCount exprStack))) argCount
                   && forallb well_formed (rev (take argCount exprStack))))
    as Hnode.
  { apply andb_True. split.
    - rewrite length_rev, length_take_le by done. apply Is_true_true, Nat.eqb_refl.
    - apply forallb_True, Forall_rev. by apply Forall_take. }
  destruct token; try done; cbn in Harity |- *;
    injection Harity as <-; exact Hnode.
Qed.

Lemma rightParenthesis_well_formed opStack exprStack s :
  Forall well_formed exprStack →
  AST.rightParenthesis opStack exprStack = Normal s →
  Forall well_formed s.2.
Proof.
  revert exprStack.
  induction opStack as [|top opStack IH]; intros exprStack Hall; [done|].
  cbn [AST.rightParenthesis]. case_bool_decide.
  - destruct (AST.peek opStack) as [next|] eqn:Hpeek; [|done].
    case_bool_decide; [|by intros [= <-]].
    destruct opStack as [|token opStack]; [done|]. cbn.
    destruct (AST.reduce token exprStack) as [exprStack1|] eqn:Hred; [|done].
    cbn. intros [= <-]. by eapply reduce_well_formed.
  - destruct (AST.reduce top exprStack) as [exprStack1|] eqn:Hred; [|done].
    cbn. apply IH. by eapply reduce_well_formed.
Qed.

Lemma operator_well_formed op opStack exprStack s :
  Forall well_formed exprStack →
  AST.operator op opStack exprStack = Normal s →
  Forall well_formed s.2.
Proof.
  revert exprStack.
  induction opStack as [|top opStack IH]; intros exprStack Hall;
    [by intros [= <-]|].
  cbn [AST.operator].
  destruct top; try by intros [= <-].
  destruct (_ && _); [by intros [= <-]|].
  destruct (_ && _); [by intros [= <-]|].
  destruct (AST.reduce _ exprStack) as [exprStack1|] eqn:Hred; [|done].
  cbn. apply IH. by eapply reduce_well_formed.
Qed.

Lemma remaining_well_formed opStack exprStack exprStack' :
  Forall well_formed exprStack →
  AST.remaining opStack exprStack = Normal exprStack' →
  Forall well_formed exprStack'.
Proof.
  revert exprStack.
  induction opStack as [|top opStack IH]; intros exprStack Hall;
    [by intros [= <-]|].
  cbn [AST.remaining]. case_bool_decide; [done|].
  destruct (AST.reduce top exprStack) as [exprStack1|] eqn:Hred; [|done].
  cbn. apply IH. by eapply reduce_well_formed.
Qed.

Lemma step_well_formed token s s' :
  token ≠ TArgumentSeparator →
  Forall well_formed s.2 →
  AST.step token s = Normal s' →
  Forall well_formed s'.2.
Proof.
  destruct s as [opStack exprStack]. cbn [snd AST.step]. intros Hsep Hall.
  destruct token; try done.
  - intros [= <-]. by constructor.
  - destruct (AST.operator _ opStack exprStack) as [[opStack1 exprStack1]|]
      eqn:Hop; [|done].
    cbn. intros [= <-]. by apply (operator_well_formed _ _ _ _ Hall Hop).
  - by intros [= <-].
  - by apply rightParenthesis_well_formed.
  - by intros [= <-].
Qed.

Lemma run_well_formed tokens s s' :
  TArgumentSeparator ∉ tokens →
  Forall well_formed s.2 →
  AST.run tokens s = Normal s' →
  Forall well_formed s'.2.
Proof.
  revert s.
  induction tokens as [|token tokens IH]; intros s Hsep Hall;
    [by intros [= <-]|].
  apply not_elem_of_cons in Hsep as [Hne Hsep]. cbn.
  destruct (AST.step token s) as [s1|] eqn:Hstep; [|done]. cbn.
  apply IH; [done|]. by eapply step_well_formed.
Qed.

(** Away from argument separators the invariant holds: the tree returned
    for a token sequence without one is well formed. *)
Lemma create_well_formed tokens root :
  TArgumentSeparator ∉ tokens →
  AST.create tokens = Normal (Some root) →
  well_formed root.
Proof.
  intros Hsep. unfold AST.create.
  destruct (AST.run tokens ([], [])) as [[opStack exprStack]|] eqn:Hrun; [|done].
  cbn.
  destruct (AST.remaining opStack exprStack) as [exprStack'|] eqn:Hrem; [|done].
  cbn. intros [= Hhead].
  assert (Forall well_formed exprStack') as Hall.
  { eapply remaining_well_formed; [|done].
    by apply (run_well_formed tokens ([], []) _ Hsep (Forall_nil_2 _) Hrun). }
  destruct exprStack' as [|top below]; [done|].
  injection Hhead as <-. by apply Forall_cons in Hall as [? _].
Qed.

(** C4. A tree returned by [create] can break the invariant: for
    ["min(~1,2)"] the first child of the root is the operator [~] with no
    children at all. *)
Theorem C4_children_and_arity :
  Tokenizer.tokenize "min(~1,2)"
  = Some (Normal [TFunction min; TLeftParenthesis; TOperator Operator.neg;
                  TNumber 1; TArgumentSeparator; TNumber 2;
                  TRightParenthesis])
  ∧ AST.create [TFunction min; TLeftParenthesis; TOperator Operator.neg;
                TNumber 1; TArgumentSeparator; TNumber 2; TRightParenthesis]
    = Normal (Some (node (TFunction min)
                      [bare (TOperator Operator.neg); leaf 2]))
  ∧ well_formed (node (TFunction min) [bare (TOperator Operator.neg); leaf 2])
    = false
  ∧ children (bare (TOperator Operator.neg)) = None
  ∧ Operator.length Operator.neg = 1.
Proof. repeat split; reflexivity. Qed.

(** *** What [create] returns *)

(** C3 does not hold as stated. Nothing is thrown for the empty token
    sequence, which yields [undefined], nor for the tokens of ["1 2"],
    which leave two nodes on [exprStack] and yield the upper one. *)
Lemma C3_counterexample :
  AST.create [] = Normal None
  ∧ AST.run [TNumber 1; TNumber 2] ([], []) = Normal ([], [leaf 2; leaf 1])
  ∧ AST.create [TNumber 1; TNumber 2] = Normal (Some (leaf 2)).
Proof. repeat split; reflexivity. Qed.

(** C3, as amended. Once the tokens and the remaining pending symbols are
    processed, [create] throws nothing and returns what [exprStack.pop()]
    gives, however many nodes are left: the top node if there is one (the
    others are dropped), [undefined] if there is none, as for the empty
    token sequence. *)
Theorem C3_create_returns_top tokens opStack exprStack exprStack' :
  AST.run tokens ([], []) = Normal (opStack, exprStack) →
  AST.remaining opStack exprStack = Normal exprStack' →
  AST.create tokens = Normal (head exprStack')
  ∧ (exprStack' = [] → AST.create tokens = Normal None)
  ∧ (∀ top below, exprStack' = top :: below →
       AST.create tokens = Normal (Some top)).
Proof.
  intros Hrun Hrem.
  assert (AST.create tokens = Normal (head exprStack')) as Hcreate.
  { unfold AST.create. rewrite Hrun. cbn. by rewrite Hrem. }
  split; [done|].
  split; [by intros ->|by intros top below ->].
Qed.

Lemma C3_create_returns_top_witness :
  AST.create [] = Normal None
  ∧ AST.create [TNumber 1; TNumber 2; TNumber 3] = Normal (Some (leaf 3)).
Proof.
  split.
  - exact (proj1 (C3_create_returns_top [] [] [] [] eq_refl eq_refl)).
  - exact (proj1 (C3_create_returns_top [TNumber 1; TNumber 2; TNumber 3]
                    [] [leaf 3; leaf 2; leaf 1] [leaf 3; leaf 2; leaf 1]
                    eq_refl eq_refl)).
Defined.

(** *** Mismatched parentheses *)

Lemma run_app tokens rest s :
  AST.run (tokens ++ rest) s = (s' ← AST.run tokens s; AST.run rest s').
Proof.
  revert s. induction tokens as [|token tokens IH]; intros s; [done|].
  cbn. destruct (AST.step token s) as [s'|e]; cbn; [apply IH|done].
Qed.

(** The loop of a right parenthesis over a stack without left
    parenthesis: it ends as the reductions end. *)
Lemma rightParenthesis_unmatched opStack exprStack :
  TLeftParenthesis ∉ opStack →
  AST.rightParenthesis opStack exprStack
  = (_ ← reduce_all opStack exprStack; Throw AST.MismatchedRightParen).
Proof.
  revert exprStack.
  induction opStack as [|top opStack IH]; intros exprStack Hnot; [done|].
  apply not_elem_of_cons in Hnot as [Hne Hnot].
  destruct top; try done; cbn;
    destruct (AST.reduce _ exprStack) as [exprStack1|]; try done;
    cbn; by apply IH.
Qed.

(** The closing loop down to the first left parenthesis: likewise. *)
Lemma remaining_unmatched above below exprStack :
  TLeftParenthesis ∉ above →
  AST.remaining (above ++ TLeftParenthesis :: below) exprStack
  = (_ ← reduce_all above exprStack; Throw AST.MismatchedLeftParen).
Proof.
  revert exprStack.
  induction above as [|top above IH]; intros exprStack Hnot; [done|].
  apply not_elem_of_cons in Hnot as [Hne Hnot].
  destruct top; try done; cbn;
    destruct (AST.reduce _ exprStack) as [exprStack1|]; try done;
    cbn; by apply IH.
Qed.

(** C9 does not hold as stated. In the tokens of ["(1+"] a left
    parenthesis is on the stack when the input ends, under a [+], and
    [create] fails with the error of [popOperator], for want of operands,
    before it reaches the parenthesis.  Likewise in those of ["+)"] the
    stack holds no left parenthesis when the right one is processed, and
    the failure is that of [popOperator] again. *)
Lemma C9_counterexample :
  (Tokenizer.tokenize "(1+"
   = Some (Normal [TLeftParenthesis; TNumber 1; TOperator Operator.add])
   ∧ AST.run [TLeftParenthesis; TNumber 1; TOperator Operator.add] ([], [])
     = Normal ([TOperator Operator.add; TLeftParenthesis], [leaf 1])
   ∧ TLeftParenthesis ∈ [TOperator Operator.add; TLeftParenthesis]
   ∧ AST.create [TLeftParenthesis; TNumber 1; TOperator Operator.add]
     = Throw AST.NotEnoughExpressions
   ∧ AST.create [TLeftParenthesis; TNumber 1; TOperator Operator.add]
     ≠ Throw AST.MismatchedLeftParen)
  ∧ (Tokenizer.tokenize "+)"
     = Some (Normal [TOperator Operator.add; TRightParenthesis])
     ∧ AST.run [TOperator Operator.add] ([], [])
       = Normal ([TOperator Operator.add], [])
     ∧ AST.create [TOperator Operator.add; TRightParenthesis]
       = Throw AST.NotEnoughExpressions
     ∧ AST.create [TOperator Operator.add; TRightParenthesis]
       ≠ Throw AST.MismatchedRightParen).
Proof.
  split.
  - split; [reflexivity|]. split; [reflexivity|].
    split; [by apply elem_of_cons; right; apply list_elem_of_singleton|].
    split; [reflexivity|]. discriminate.
  - split; [reflexivity|]. split; [reflexivity|].
    split; [reflexivity|]. discriminate.
Qed.

(** C9, as amended. When a right parenthesis is processed and no left
    parenthesis is on the stack, [create] fails with MismatchedRightParen
    provided every token on the stack can be reduced; when the input ends
    and a left parenthesis is on the stack, [create] fails with
    MismatchedLeftParen provided every token above the topmost one can be
    reduced.  When a reduction fails, [create] fails with its error
    instead. *)
Theorem C9_mismatched_parentheses :
  (∀ tokens rest opStack exprStack,
     AST.run tokens ([], []) = Normal (opStack, exprStack) →
     TLeftParenthesis ∉ opStack →
     (∀ exprStack', reduce_all opStack exprStack = Normal exprStack' →
        AST.create (tokens ++ TRightParenthesis :: rest)
        = Throw AST.MismatchedRightParen)
     ∧ (∀ e, reduce_all opStack exprStack = Throw e →
          AST.create (tokens ++ TRightParenthesis :: rest) = Throw e))
  ∧ (∀ tokens above below exprStack,
       AST.run tokens ([], [])
       = Normal (above ++ TLeftParenthesis :: below, exprStack) →
       TLeftParenthesis ∉ above →
       (∀ exprStack', reduce_all above exprStack = Normal exprStack' →
          AST.create tokens = Throw AST.MismatchedLeftParen)
       ∧ (∀ e, reduce_all above exprStack = Throw e →
            AST.create tokens = Throw e)).
Proof.
  split.
  - intros tokens rest opStack exprStack Hrun Hnot.
    assert (AST.create (tokens ++ TRightParenthesis :: rest)
            = (_ ← reduce_all opStack exprStack;
               Throw AST.MismatchedRightParen)) as Hcreate.
    { unfold AST.create. rewrite run_app, Hrun. cbn.
      rewrite rightParenthesis_unmatched by done.
      by destruct (reduce_all opStack exprStack). }
    split; intros x Hred; by rewrite Hcreate, Hred.
  - intros tokens above below exprStack Hrun Hnot.
    assert (AST.create tokens
            = (_ ← reduce_all above exprStack;
               Throw AST.MismatchedLeftParen)) as Hcreate.
    { unfold AST.create. rewrite Hrun. cbn.
      rewrite remaining_unmatched by done.
      by destruct (reduce_all above exprStack). }
    split; intros x Hred; by rewrite Hcreate, Hred.
Qed.

Lemma C9_mismatched_parentheses_witness :
  (Tokenizer.tokenize "1+2)"
   = Some (Normal ([TNumber 1; TOperator Operator.add; TNumber 2]
                     ++ [TRightParenthesis]))
   ∧ AST.create ([TNumber 1; TOperator Operator.add; TNumber 2]
                   ++ [TRightParenthesis])
     = Throw AST.MismatchedRightParen)
  ∧ (Tokenizer.tokenize "(1+2"
     = Some (Normal [TLeftParenthesis; TNumber 1; TOperator Operator.add;
                     TNumber 2])
     ∧ AST.create [TLeftParenthesis; TNumber 1; TOperator Operator.add;
                   TNumber 2]
       = Throw AST.MismatchedLeftParen).
Proof.
  split; (split; [reflexivity|]).
  - refine (proj1 (proj1 C9_mismatched_parentheses
                     [TNumber 1; TOperator Operator.add; TNumber 2] []
                     [TOperator Operator.add] [leaf 2; leaf 1] eq_refl _)
              [node (TOperator Operator.add) [leaf 1; leaf 2]] eq_refl).
    by intros Hin%list_elem_of_singleton.
  - refine (proj1 (proj2 C9_mismatched_parentheses
                     [TLeftParenthesis; TNumber 1; TOperator Operator.add;
                      TNumber 2]
                     [TOperator Operator.add] [] [leaf 2; leaf 1] eq_refl _)
              [node (TOperator Operator.add) [leaf 1; leaf 2]] eq_refl).
    by intros Hin%list_elem_of_singleton.
Defined.

(** * Further properties *)

(** ** Further properties of the operator registry *)




Lemma registered ops dic :
  Operator.register_all ops [] = Normal dic → registry ops dic.
Proof. apply (registry_register_all ops [] []), registry_nil. Qed.



Lemma descending_lookup (lengths : list nat) i j a b :
  StronglySorted (λ a b : nat, b ≤ a) lengths →
  i < j → lengths !! i = Some a → lengths !! j = Some b → b ≤ a.
Proof.
  intros Hsorted. revert i j.
  induction Hsorted as [|x lengths Hsorted IH Hall]; intros i j Hij Hi Hj;
    [done|].
  destruct j as [|j]; [lia|]. destruct i as [|i]; cbn in Hi, Hj.
  - injection Hi as <-. rewrite Forall_forall in Hall. apply Hall.
    by eapply list_elem_of_lookup_2.
  - eapply (IH i j); [lia|done..].
Qed.

(** X2. The order of the dictionary: after any registrations its entries
    stand in strictly descending order of [symbolLength], and an entry
    holds, under its symbol, operators of that symbol length only. *)
Theorem dictionary_descending ops dic :
  Operator.register_all ops [] = Normal dic →
  (∀ i j e1 e2,
     i < j → dic !! i = Some e1 → dic !! j = Some e2 →
     Operator.symbolLength e2 < Operator.symbolLength e1)
  ∧ (∀ e s op,
       e ∈ dic → Operator.opMap e !! s = Some op →
       Operator.symbol op = s ∧ String.length s = Operator.symbolLength e).
Proof.
  intros [Hsorted Hlengths Hsound _]%registered. split.
  - intros i j e1 e2 Hij Hi Hj.
    assert ((Operator.symbolLength <$> dic) !! i
            = Some (Operator.symbolLength e1)) as Hi'
      by by rewrite list_lookup_fmap, Hi.
    assert ((Operator.symbolLength <$> dic) !! j
            = Some (Operator.symbolLength e2)) as Hj'
      by by rewrite list_lookup_fmap, Hj.
    pose proof (descending_lookup _ i j _ _ Hsorted Hij Hi' Hj') as Hle.
    assert (Operator.symbolLength e1 ≠ Operator.symbolLength e2); [|lia].
    intros Heq. rewrite <- Heq in Hj'.
    pose proof (NoDup_lookup _ _ _ _ Hlengths Hi' Hj'). lia.
  - intros e s op He Hlook. by destruct (Hsound e s op He Hlook) as (? & ? & _).
Qed.

Lemma dictionary_descending_witness :
  match Operator.dictionary with
  | [e1; e2] => Operator.symbolLength e2 < Operator.symbolLength e1
  | _ => False
  end.
Proof.
  exact (proj1 (dictionary_descending Operator.builtins Operator.dictionary
                  eq_refl) 0 1 _ _ (le_n 1) eq_refl eq_refl).
Defined.





(** ** Further properties of the tokenizer *)

(** *** Number literals *)

Lemma charCodeAt_inside expr i :
  i < String.length expr → ∃ code, JS.charCodeAt expr i = Some code.
Proof.
  unfold JS.charCodeAt. revert i.
  induction expr as [|c expr IH]; intros [|i]; cbn; try lia; [by eexists|].
  intros Hi. apply IH. lia.
Qed.

(** The two tests of the loop of [readNumber], in terms of the character
    read. *)
Lemma readNumber_tests expr i :
  i < String.length expr →
  (JS.code_eq (JS.charCodeAt expr i) (JS.charCodeAt "." 0) = mark_at expr i)
  ∧ (JS.code_lt (JS.charCodeAt expr i) (JS.charCodeAt "0" 0)
     || JS.code_gt (JS.charCodeAt expr i) (JS.charCodeAt "9" 0)
     = negb (digit_at expr i))
  ∧ (mark_at expr i = true → digit_at expr i = false).
Proof.
  intros [code Hcode]%charCodeAt_inside.
  unfold mark_at, digit_at. rewrite Hcode.
  change (JS.charCodeAt "." 0) with (Some 46).
  change (JS.charCodeAt "0" 0) with (Some 48).
  change (JS.charCodeAt "9" 0) with (Some 57).
  unfold JS.code_gt, JS.code_ge, JS.code_lt, JS.code_le, JS.code_eq.
  split; [done|]. split.
  - by rewrite !Nat.ltb_antisym, negb_andb.
  - intros ->%Nat.eqb_eq. done.
Qed.

Lemma outside_tests expr i :
  String.length expr ≤ i → digit_at expr i = false ∧ mark_at expr i = false.
Proof.
  intros Hout. unfold digit_at, mark_at, JS.charCodeAt.
  assert (String.get i expr = None) as ->; [|done].
  revert i Hout.
  induction expr as [|c expr IH]; intros [|i]; cbn; try done; try lia.
  intros Hout. apply IH. lia.
Qed.

(** The run the loop of [readNumber] reads, from [i] with the flag at
    [decimalMark]: digits and decimal marks, a mark only while the flag is
    down, and as far as that goes. *)
Lemma readNumber_loop_run steps expr i decimalMark :
  String.length expr - i ≤ steps →
  decimalMark ≤ 1 →
  let stop := (Tokenizer.readNumber_loop steps expr i decimalMark).1 in
  let flag := (Tokenizer.readNumber_loop steps expr i decimalMark).2 in
  i ≤ stop
  ∧ decimalMark ≤ flag ≤ 1
  ∧ (∀ j, i ≤ j < stop → digit_at expr j || mark_at expr j = true)
  ∧ (∀ j, i ≤ j < stop → mark_at expr j = true →
       decimalMark = 0 ∧ flag = 1
       ∧ ∀ k, i ≤ k < stop → mark_at expr k = true → k = j)
  ∧ (flag = 1 → decimalMark = 1 ∨ ∃ j, i ≤ j < stop ∧ mark_at expr j = true)
  ∧ (∃ digits, stop - i = digits + (flag - decimalMark)
       ∧ (digits = 0 → ∀ j, i ≤ j < stop → digit_at expr j = false)
       ∧ (0 < digits → ∃ j, i ≤ j < stop ∧ digit_at expr j = true))
  ∧ digit_at expr stop = false
  ∧ (mark_at expr stop = true → flag = 1).
Proof.
  revert i decimalMark.
  induction steps as [|steps IH]; intros i decimalMark Hsteps Hflag;
    cbn [Tokenizer.readNumber_loop].
  { cbn. destruct (outside_tests expr i) as [Hdigit Hmark]; [lia|].
    split; [done|]. split; [lia|]. split; [intros; lia|].
    split; [intros; lia|]. split; [by left|].
    split; [exists 0; split; [lia|]; split; intros; lia|].
    split; [done|]. by rewrite Hmark. }
  destruct (Nat.ltb_spec i (String.length expr)) as [Hin|Hout]; cycle 1.
  { cbn. destruct (outside_tests expr i) as [Hdigit Hmark]; [lia|].
    split; [done|]. split; [lia|]. split; [intros; lia|].
    split; [intros; lia|]. split; [by left|].
    split; [exists 0; split; [lia|]; split; intros; lia|].
    split; [done|]. by rewrite Hmark. }
  destruct (readNumber_tests expr i Hin) as (-> & -> & Hexclusive).
  destruct (mark_at expr i) eqn:Hmark.
  - specialize (Hexclusive eq_refl).
    destruct (Nat.eqb_spec decimalMark 1) as [->|Hdown].
    + cbn. split; [done|]. split; [lia|]. split; [intros; lia|].
      split; [intros; lia|]. split; [by left|].
      split; [exists 0; split; [lia|]; split; intros; lia|]. done.
    + assert (decimalMark = 0) as -> by lia.
      specialize (IH (S i) 1 ltac:(lia) ltac:(lia)).
      destruct (Tokenizer.readNumber_loop steps expr (S i) 1)
        as [stop flag]. cbn [fst snd] in IH |- *.
      destruct IH as (Hstop & Hflags & Hrun & Hmarks & Hup & Hdigits
                      & Hend & Hendmark).
      assert (flag = 1) as -> by lia.
      assert (∀ j, S i ≤ j < stop → mark_at expr j = false) as Hnomark.
      { intros j Hj. destruct (mark_at expr j) eqn:Hj'; [|done].
        by destruct (Hmarks j Hj Hj') as [? _]. }
      split; [lia|]. split; [lia|]. split.
      { intros j Hj. destruct (decide (j = i)) as [->|].
        - by rewrite Hmark, orb_true_r.
        - apply Hrun. lia. }
      split.
      { intros j Hj Hj'. split; [done|]. split; [done|].
        assert (j = i) as ->.
        { destruct (decide (j = i)); [done|].
          rewrite Hnomark in Hj' by lia. done. }
        intros k Hk Hk'. destruct (decide (k = i)); [done|].
        rewrite Hnomark in Hk' by lia. done. }
      split; [right; exists i; split; [lia|done]|].
      split; [|done].
      destruct Hdigits as (digits & Hcount & Hnone & Hsome).
      exists digits. split; [lia|]. split.
      * intros Hzero j Hj. destruct (decide (j = i)) as [->|]; [done|].
        apply Hnone; [done|lia].
      * intros Hpos. destruct (Hsome Hpos) as (j & Hj & Hj').
        exists j. split; [lia|done].
  - destruct (digit_at expr i) eqn:Hdigit; cbn [negb].
    + specialize (IH (S i) decimalMark ltac:(lia) ltac:(lia)).
      destruct (Tokenizer.readNumber_loop steps expr (S i) decimalMark)
        as [stop flag]. cbn [fst snd] in IH |- *.
      destruct IH as (Hstop & Hflags & Hrun & Hmarks & Hup & Hdigits
                      & Hend & Hendmark).
      split; [lia|]. split; [lia|]. split.
      { intros j Hj. destruct (decide (j = i)) as [->|].
        - by rewrite Hdigit.
        - apply Hrun. lia. }
      split.
      { intros j Hj Hj'.
        assert (j ≠ i) by (intros ->; by rewrite Hmark in Hj').
        destruct (Hmarks j ltac:(lia) Hj') as (? & ? & Hone).
        split; [done|]. split; [done|].
        intros k Hk Hk'.
        assert (k ≠ i) by (intros ->; by rewrite Hmark in Hk').
        apply Hone; [lia|done]. }
      split.
      { intros Hflag1. destruct (Hup Hflag1) as [?|(j & Hj & Hj')];
          [by left|]. right. exists j. split; [lia|done]. }
      split; [|done].
      destruct Hdigits as (digits & Hcount & Hnone & Hsome).
      exists (S digits). split; [lia|]. split; [done|].
      intros _. exists i. split; [lia|done].
    + cbn. split; [done|]. split; [lia|]. split; [intros; lia|].
      split; [intros; lia|]. split; [by left|].
      split; [exists 0; split; [lia|]; split; intros; lia|].
      split; [done|]. by rewrite Hmark.
Qed.

(** What [readNumber] reads, from the invariant of its loop. *)
Lemma readNumber_reads expr index info :
  Tokenizer.readNumber expr index = Normal (Some info) →
  let stop := index + charsRead info in
  info_token info
  = TNumber (JS.Number (JS.substr expr index (charsRead info)))
  ∧ (∃ j, index ≤ j < stop ∧ digit_at expr j = true)
  ∧ (∀ j, index ≤ j < stop → digit_at expr j || mark_at expr j = true)
  ∧ (∀ j k, index ≤ j < stop → index ≤ k < stop →
       mark_at expr j = true → mark_at expr k = true → j = k)
  ∧ digit_at expr stop = false
  ∧ (mark_at expr stop = true →
     ∃ j, index ≤ j < stop ∧ mark_at expr j = true).
Proof.
  unfold Tokenizer.readNumber.
  pose proof (readNumber_loop_run (String.length expr - index) expr index 0
                ltac:(lia) ltac:(lia)) as Hrun.
  destruct (Tokenizer.readNumber_loop _ expr index 0) as [i flag].
  cbn [fst snd] in Hrun.
  destruct Hrun as (Hstop & Hflags & Hrun & Hmarks & Hup & Hdigits
                    & Hend & Hendmark).
  destruct (Nat.eqb_spec (i - index - flag) 0) as [|Hsome]; [done|].
  cbn. intros [= <-]. cbn.
  replace (index + (i - index)) with i by lia.
  split; [done|]. split.
  { destruct Hdigits as (digits & Hcount & _ & Hpos). apply Hpos. lia. }
  split; [done|]. split.
  { intros j k Hj Hk Hj' Hk'. by destruct (Hmarks j Hj Hj') as (_ & _ & ->). }
  split; [done|].
  intros Hmark. destruct (Hup (Hendmark Hmark)) as [|?]; [done|done].
Qed.

(** X5. What [readNumber] reads: a run of digits and decimal marks that
    holds one digit or more and one mark at most, and that nothing can
    extend: the character after it is no digit, and is a mark only if the
    run holds one already.  The token is the number [Number] reads in
    those characters. *)
Theorem readNumber_run expr index info :
  Tokenizer.readNumber expr index = Normal (Some info) →
  let stop := index + charsRead info in
  info_token info
  = TNumber (JS.Number (JS.substr expr index (charsRead info)))
  ∧ (∃ j, index ≤ j < stop ∧ digit_at expr j = true)
  ∧ (∀ j, index ≤ j < stop → digit_at expr j || mark_at expr j = true)
  ∧ (∀ j k, index ≤ j < stop → index ≤ k < stop →
       mark_at expr j = true → mark_at expr k = true → j = k)
  ∧ digit_at expr stop = false
  ∧ (mark_at expr stop = true →
     ∃ j, index ≤ j < stop ∧ mark_at expr j = true).
Proof. apply readNumber_reads. Qed.

Lemma readNumber_run_witness :
  ∃ j, 2 ≤ j < 2 + 4 ∧ digit_at "x=12.5.7" j = true.
Proof.
  exact (proj1 (proj2 (readNumber_run "x=12.5.7" 2
                         {| info_token := TNumber 12.5; charsRead := 4 |}
                         eq_refl))).
Defined.

(** X6. When [readNumber] reads a number: exactly when the character at
    the position is a digit, or is a decimal mark with a digit after it.
    A lone mark is no number, and [readNumber] never throws. *)
Theorem readNumber_starts expr index :
  let starts :=
    digit_at expr index || mark_at expr index && digit_at expr (S index) in
  match Tokenizer.readNumber expr index with
  | Normal (Some info) => starts = true
  | Normal None => starts = false
  | Throw _ => False
  end.
Proof.
  intros starts.
  destruct (Tokenizer.readNumber expr index) as [[info|]|e] eqn:Hread.
  - destruct (readNumber_reads _ _ _ Hread)
      as (_ & (j & Hj & Hdigit) & Hrun & Hmarks & _).
    unfold starts. destruct (digit_at expr index) eqn:Hfirst; [done|].
    assert (index < j).
    { destruct (decide (index = j)) as [->|]; [congruence|lia]. }
    pose proof (Hrun index ltac:(lia)) as Hmark.
    rewrite Hfirst in Hmark. cbn in Hmark |- *. rewrite Hmark. cbn.
    pose proof (Hrun (S index) ltac:(lia)) as Hnext.
    destruct (digit_at expr (S index)); [done|]. cbn in Hnext.
    pose proof (Hmarks index (S index) ltac:(lia) ltac:(lia) Hmark Hnext). lia.
  - revert Hread. unfold Tokenizer.readNumber.
    pose proof (readNumber_loop_run (String.length expr - index) expr index 0
                  ltac:(lia) ltac:(lia)) as Hrun.
    destruct (Tokenizer.readNumber_loop _ expr index 0) as [i flag].
    cbn [fst snd] in Hrun.
    destruct Hrun as (Hstop & Hflags & Hrun & Hmarks & Hup & Hdigits
                      & Hend & Hendmark).
    destruct (Nat.eqb_spec (i - index - flag) 0) as [Hnone|]; [|done].
    intros _. destruct Hdigits as (digits & Hcount & Hzero & _).
    assert (digits = 0) as -> by lia. specialize (Hzero eq_refl).
    assert (∀ j, index ≤ j ≤ i → digit_at expr j = false) as Hnodigit.
    { intros j Hj. destruct (decide (j = i)) as [->|]; [done|].
      apply Hzero. lia. }
    unfold starts. rewrite (Hnodigit index) by lia. cbn.
    destruct (mark_at expr index) eqn:Hmark; [|done]. cbn.
    apply Hnodigit. split; [lia|].
    destruct (decide (index = i)) as [->|]; [|lia].
    destruct (Hup (Hendmark Hmark)) as [|(j & Hj & _)]; [done|lia].
  - revert Hread. unfold Tokenizer.readNumber.
    destruct (Tokenizer.readNumber_loop _ expr index 0) as [i flag].
    by destruct (Nat.eqb _ 0).
Qed.

(** *** What [tokenize] returns and throws *)

Lemma readNumber_Normal expr index :
  ∃ info, Tokenizer.readNumber expr index = Normal info.
Proof.
  unfold Tokenizer.readNumber.
  destruct (Tokenizer.readNumber_loop _ expr index 0) as [i decimalMark].
  destruct (Nat.eqb _ 0); by eexists.
Qed.

Lemma readFunction_by_Normal cut expr index :
  ∃ info, Tokenizer.readFunction_by cut expr index = Normal info.
Proof.
  unfold Tokenizer.readFunction_by.
  destruct (negb _); [by eexists|].
  destruct (FunctionMap !! _); by eexists.
Qed.

Lemma readFunction_by_known cut expr index info :
  Tokenizer.readFunction_by cut expr index = Normal (Some info) →
  known (info_token info).
Proof.
  unfold Tokenizer.readFunction_by.
  destruct (negb _); [done|].
  destruct (FunctionMap !! _) as [f|] eqn:Hlook; [|done].
  cbn. intros [= <-]. cbn. by eexists.
Qed.

Lemma parse_known expr startIndex op :
  Operator.parse expr startIndex = Some op → op ∈ Operator.builtins.
Proof.
  intros Hparse.
  by apply (proj1 (parse_in_longest _ _ expr startIndex registry_builtins))
    in Hparse as [Hin _].
Qed.

Lemma new_Token_punctuation s :
  String.eqb s "(" || String.eqb s ")" || String.eqb s "," = true →
  ∃ token, new_Token (VString s) = Normal token.
Proof.
  unfold new_Token.
  destruct (String.eqb s "("); [by eexists|].
  destruct (String.eqb s ")"); [by eexists|].
  destruct (String.eqb s ","); [by eexists|done].
Qed.

Section Tokens.

Variable cut : string → nat → nat → string.

Let readFunction := Tokenizer.readFunction_by cut.

Lemma readToken_by_Normal expr index :
  ∃ info, Tokenizer.readToken_by readFunction expr index = Normal info.
Proof.
  unfold Tokenizer.readToken_by.
  destruct (readNumber_Normal expr index) as [[number|] ->];
    cbn [mbind completion_bind]; [by eexists|].
  destruct (Operator.parse expr index); [cbn; by eexists|].
  destruct (_ || _) eqn:Hchar.
  - destruct (new_Token_punctuation _ Hchar) as [token ->]. by eexists.
  - destruct (readFunction_by_Normal cut expr index) as [[name|] Hname];
      unfold readFunction; rewrite Hname; by eexists.
Qed.

Lemma readToken_by_known expr index info :
  Tokenizer.readToken_by readFunction expr index = Normal (Some info) →
  known (info_token info).
Proof.
  unfold Tokenizer.readToken_by.
  destruct (Tokenizer.readNumber expr index) as [[number|]|] eqn:Hnumber;
    cbn; [|idtac|done].
  { intros [= <-]. revert Hnumber. unfold Tokenizer.readNumber.
    destruct (Tokenizer.readNumber_loop _ expr index 0) as [i decimalMark].
    destruct (Nat.eqb _ 0); [done|]. cbn. by intros [= <-]. }
  destruct (Operator.parse expr index) as [op|] eqn:Hparse; cbn.
  { intros [= <-]. cbn. by eapply parse_known. }
  destruct (_ || _).
  { repeat destruct (String.eqb _ _); cbn; try done; by intros [= <-]. }
  destruct (readFunction expr index) as [[name|]|] eqn:Hname; cbn; [|done..].
  intros [= <-]. by eapply readFunction_by_known.
Qed.

(** What the loop of [tokenize] can end in, from position [i] on. *)
Lemma tokenize_loop_result steps expr i tokenList :
  match Tokenizer.tokenize_loop readFunction steps expr i tokenList with
  | Some (Normal tokens) =>
      ∃ more, tokens = tokenList ++ more
        ∧ length more ≤ String.length expr - i
        ∧ Forall known more
        ∧ (more = [] ↔
           ∀ j, i ≤ j < String.length expr → space_at expr j = true)
  | Some (Throw e) =>
      ∃ j, i ≤ j < String.length expr
        ∧ space_at expr j = false
        ∧ Tokenizer.readToken_by readFunction expr j = Normal None
        ∧ e = Error ("Unexpected token or symbol: '"
                       ++ JS.charAt expr j ++ "'.")%string
  | None => True
  end.
Proof.
  revert i tokenList.
  induction steps as [|steps IH]; intros i tokenList; [done|].
  cbn [Tokenizer.tokenize_loop].
  destruct (Nat.ltb_spec i (String.length expr)) as [Hin|Hout].
  - fold (space_at expr i). destruct (space_at expr i) eqn:Hspace.
    + specialize (IH (S i) tokenList).
      destruct (Tokenizer.tokenize_loop _ steps expr _ _) as [[tokens|e]|];
        [| |done].
      * destruct IH as (more & -> & Hlen & Hknown & Hnil).
        exists more. split; [done|]. split; [lia|]. split; [done|].
        rewrite Hnil. split.
        -- intros Hall j Hj. destruct (decide (j = i)) as [->|]; [done|].
           apply Hall. lia.
        -- intros Hall j Hj. apply Hall. lia.
      * destruct IH as (j & Hj & Hrest). exists j. split; [lia|done].
    + destruct (readToken_by_Normal expr i) as [[info|] Hread]; rewrite Hread.
      * pose proof (readToken_by_progress _
                      (readFunction_by_progress cut) _ _ _ Hread) as Hstep.
        pose proof (readToken_by_known _ _ _ Hread) as Hinfo.
        specialize (IH (i + charsRead info) (tokenList ++ [info_token info])).
        destruct (Tokenizer.tokenize_loop _ steps expr _ _) as [[tokens|e]|];
          [| |done].
        -- destruct IH as (more & -> & Hlen & Hknown & Hnil).
           exists (info_token info :: more).
           split; [by rewrite <- app_assoc|]. split; [cbn; lia|].
           split; [by constructor|]. split; [done|].
           intros Hall. specialize (Hall i). rewrite Hspace in Hall.
           discriminate Hall. lia.
        -- destruct IH as (j & Hj & Hrest). exists j. split; [lia|done].
      * exists i. by repeat split.
  - exists []. split; [by rewrite app_nil_r|]. split; [cbn; lia|].
    split; [done|]. split; [|done]. intros _ j Hj. lia.
Qed.

End Tokens.

(** X7. The only exception [tokenize] throws is its own: if it throws, a
    position of the string holds a character that is not skipped and at
    which no recognizer reads a token, and the error is "Unexpected token
    or symbol" with that character; the TypeError of the [Token]
    constructor never comes out of it. *)
Theorem tokenize_throws expr e :
  Tokenizer.tokenize expr = Some (Throw e) →
  ∃ i, i < String.length expr
    ∧ space_at expr i = false
    ∧ Tokenizer.readToken expr i = Normal None
    ∧ e = Error ("Unexpected token or symbol: '"
                   ++ JS.charAt expr i ++ "'.")%string.
Proof.
  intros Hthrow.
  pose proof (tokenize_loop_result JS.substr (S (String.length expr)) expr 0 [])
    as Hresult.
  unfold Tokenizer.tokenize, Tokenizer.tokenize_by, Tokenizer.readFunction
    in Hthrow.
  rewrite Hthrow in Hresult. destruct Hresult as (i & Hi & Hrest).
  exists i. split; [lia|done].
Qed.

Lemma tokenize_throws_witness :
  ∃ i, i < String.length "1 @ 2"
    ∧ space_at "1 @ 2" i = false
    ∧ Tokenizer.readToken "1 @ 2" i = Normal None
    ∧ Error "Unexpected token or symbol: '@'."
      = Error ("Unexpected token or symbol: '"
                 ++ JS.charAt "1 @ 2" i ++ "'.")%string.
Proof. exact (tokenize_throws "1 @ 2" _ eq_refl). Defined.

(** X8. [tokenize] returns no more tokens than the string has
    characters. *)
Theorem tokenize_length expr tokens :
  Tokenizer.tokenize expr = Some (Normal tokens) →
  length tokens ≤ String.length expr.
Proof.
  intros Hnormal.
  pose proof (tokenize_loop_result JS.substr (S (String.length expr)) expr 0 [])
    as Hresult.
  unfold Tokenizer.tokenize, Tokenizer.tokenize_by, Tokenizer.readFunction
    in Hnormal.
  rewrite Hnormal in Hresult. destruct Hresult as (more & -> & Hlen & _).
  cbn. lia.
Qed.

Lemma tokenize_length_witness :
  length [TNumber 1; TOperator Operator.add; TNumber 2]
  ≤ String.length "1 + 2".
Proof. exact (tokenize_length "1 + 2" _ eq_refl). Defined.

(** X9. Every operator token [tokenize] returns carries a registered
    operator and every function token a function of [FunctionMap]. *)
Theorem tokenize_known expr tokens :
  Tokenizer.tokenize expr = Some (Normal tokens) →
  ∀ token, token ∈ tokens →
    match token with
    | TOperator op => op ∈ Operator.builtins
    | TFunction f => ∃ name, FunctionMap !! name = Some f
    | _ => True
    end.
Proof.
  intros Hnormal.
  pose proof (tokenize_loop_result JS.substr (S (String.length expr)) expr 0 [])
    as Hresult.
  unfold Tokenizer.tokenize, Tokenizer.tokenize_by, Tokenizer.readFunction
    in Hnormal.
  rewrite Hnormal in Hresult.
  destruct Hresult as (more & -> & _ & Hknown & _).
  rewrite Forall_forall in Hknown. intros token Hin. by apply Hknown.
Qed.

Lemma tokenize_known_witness :
  ∃ name, FunctionMap !! name = Some max.
Proof.
  refine (tokenize_known "max(3,5)" _ eq_refl (TFunction max) _).
  apply list_elem_of_here.
Defined.

(** X10. [tokenize] returns the empty list exactly on the strings made of
    the four skipped characters only (the empty string among them). *)
Theorem tokenize_empty expr :
  Tokenizer.tokenize expr = Some (Normal [])
  ↔ ∀ i, i < String.length expr → space_at expr i = true.
Proof.
  pose proof (tokenize_loop_result JS.substr (S (String.length expr)) expr 0 [])
    as Hresult.
  pose proof (tokenize_loop_ends _ (readFunction_by_progress JS.substr) expr
                (String.length expr) 0 [] ltac:(lia)) as [r Hr].
  specialize (Hr (S (String.length expr)) ltac:(lia)).
  unfold Tokenizer.tokenize, Tokenizer.tokenize_by, Tokenizer.readFunction.
  rewrite Hr in Hresult |- *. split.
  - intros [= ->]. destruct Hresult as (more & Heq & _ & _ & Hnil).
    cbn in Heq. subst more. intros i Hi. apply (proj1 Hnil eq_refl). lia.
  - intros Hall. destruct r as [tokens|e].
    + destruct Hresult as (more & -> & _ & _ & Hnil).
      rewrite (proj2 Hnil); [done|]. intros j Hj. apply Hall. lia.
    + destruct Hresult as (j & Hj & Hspace & _).
      rewrite Hall in Hspace by lia. done.
Qed.

(** *** The source against the compiled artifact *)

(** X11. The recognizer of function names in the compiled artifact: where
    no letter stands it reads nothing; where one does, it takes that letter
    and the letters and digits after it as far as they go, and answers
    with the function of that name, or with nothing when [FunctionMap] has
    none. *)
Theorem compiled_readFunction_maximal expr index :
  let stop :=
    Tokenizer.readFunction_loop (String.length expr - (index + 1)) expr
      (index + 1) in
  (Tokenizer.isAlphabetic expr index = false →
   Compiled.readFunction expr index = Normal None)
  ∧ (Tokenizer.isAlphabetic expr index = true →
     index < stop ≤ String.length expr
     ∧ (∀ j, index < j < stop → Tokenizer.isAlphaNumeric expr j = true)
     ∧ (stop < String.length expr → Tokenizer.isAlphaNumeric expr stop = false)
     ∧ Compiled.readFunction expr index
       = match FunctionMap !! identifier expr index with
         | Some f =>
             Normal (Some {| info_token := TFunction f;
                             charsRead := stop - index |})
         | None => Normal None
         end).
Proof. apply compiled_readFunction_spec. Qed.

(** X12. At the start of the string the recognizer of the source and that
    of the artifact agree, on what they read and on what they refuse. *)
Theorem readFunction_agree_at_start expr :
  Tokenizer.readFunction expr 0 = Compiled.readFunction expr 0.
Proof. apply readFunction_at_start. Qed.

Lemma function_names name f :
  FunctionMap !! name = Some f →
  name ∈ ["max"; "min"; "rand"; "floor"; "ceil"; "round"].
Proof.
  unfold FunctionMap. intros Hlook.
  repeat (apply lookup_insert_Some in Hlook as [[<- _]|[_ Hlook]];
          [repeat first [apply list_elem_of_here|apply list_elem_of_further]|]).
  by rewrite lookup_empty in Hlook.
Qed.

(** The names of [FunctionMap] are made of letters and digits. *)
Lemma function_name_letters name f k :
  FunctionMap !! name = Some f →
  k < String.length name → Tokenizer.isAlphaNumeric name k = true.
Proof.
  intros Hname%function_names.
  repeat (apply elem_of_cons in Hname as [->|Hname];
          [cbn; intros Hk;
           repeat (destruct k as [|k]; [reflexivity|]); lia|]).
  by apply elem_of_nil in Hname.
Qed.

Lemma isAlphaNumeric_get str i str' i' :
  String.get i str = String.get i' str' →
  Tokenizer.isAlphaNumeric str i = Tokenizer.isAlphaNumeric str' i'.
Proof.
  intros Hget. unfold Tokenizer.isAlphaNumeric, JS.charCodeAt.
  by rewrite Hget.
Qed.

Lemma substring_inside expr from to :
  from ≤ to → to ≤ String.length expr →
  JS.substring expr from to = String.substring from (to - from) expr.
Proof.
  intros Horder Hinside. unfold JS.substring.
  by rewrite !Nat.min_l, Nat.max_r by lia.
Qed.

(** A name that [FunctionMap] holds, cut by the source with [substr], is
    the identifier itself. *)
Lemma registered_cut expr index f :
  Tokenizer.isAlphabetic expr index = true →
  FunctionMap
    !! JS.substr expr index
         (Tokenizer.readFunction_loop (String.length expr - (index + 1)) expr
            (index + 1))
  = Some f →
  JS.substr expr index
    (Tokenizer.readFunction_loop (String.length expr - (index + 1)) expr
       (index + 1))
  = identifier expr index.
Proof.
  intros Hletter%isAlphabetic_inside Hname. unfold identifier.
  destruct (readFunction_loop_stop (String.length expr - (index + 1)) expr
              (index + 1)) as (Hbounds & _ & Hstop); [lia..|].
  revert Hname Hbounds Hstop.
  generalize (Tokenizer.readFunction_loop
                (String.length expr - (index + 1)) expr (index + 1)).
  intros stop Hname Hbounds Hstop.
  rewrite substring_inside by lia. unfold JS.substr in *.
  apply String.get_correct. intros k.
  destruct (Nat.lt_ge_cases k (stop - index)) as [Hk|Hk].
  { by rewrite !String.substring_correct1 by lia. }
  rewrite (String.substring_correct2 _ _ (stop - index)) by done.
  destruct (Nat.lt_ge_cases k stop) as [Hk'|Hk'];
    [|by apply String.substring_correct2].
  rewrite String.substring_correct1 by done.
  destruct (String.get (k + index) expr) as [c|] eqn:Hget; [|done].
  apply get_inside in Hget.
  assert (String.get (stop - index) (String.substring index stop expr)
          = String.get stop expr) as Hsame.
  { rewrite String.substring_correct1 by lia. f_equal. lia. }
  assert (stop - index < String.length (String.substring index stop expr))
    as Hin.
  { destruct (String.get stop expr) as [c'|] eqn:Hget'.
    - by eapply get_inside.
    - assert (stop < String.length expr) as Hlt by lia.
      clear -Hget' Hlt. exfalso. revert stop Hget' Hlt.
      induction expr as [|c'' expr IH]; intros [|stop]; cbn; try done; try lia.
      intros Hget Hlt. eapply IH; [done|lia]. }
  pose proof (function_name_letters _ _ _ Hname Hin) as Hletter'.
  rewrite (isAlphaNumeric_get _ _ expr stop Hsame) in Hletter'.
  rewrite Hstop in Hletter' by lia. done.
Qed.

(** Whatever the recognizer of the source reads, that of the artifact
    reads. *)
Lemma readFunction_refines expr index info :
  Tokenizer.readFunction expr index = Normal (Some info) →
  Compiled.readFunction expr index = Normal (Some info).
Proof.
  unfold Tokenizer.readFunction, Compiled.readFunction,
    Tokenizer.readFunction_by.
  destruct (Tokenizer.isAlphabetic expr index) eqn:Hletter; [|done].
  cbn [negb].
  destruct (FunctionMap !! JS.substr _ _ _) as [f|] eqn:Hname; [|done].
  pose proof (registered_cut _ _ _ Hletter Hname) as Hcut.
  unfold identifier in Hcut. rewrite <- Hcut, Hname. done.
Qed.

Lemma readToken_refines expr index info :
  Tokenizer.readToken expr index = Normal (Some info) →
  Compiled.readToken expr index = Normal (Some info).
Proof.
  unfold Tokenizer.readToken, Compiled.readToken, Tokenizer.readToken_by.
  destruct (Tokenizer.readNumber expr index) as [[number|]|];
    cbn [mbind completion_bind]; [done| |done].
  destruct (Operator.parse expr index); [done|].
  destruct (_ || _); [done|].
  destruct (Tokenizer.readFunction expr index) as [[name|]|] eqn:Hname;
    cbn [mbind completion_bind]; [|done..].
  intros [= <-]. by rewrite (readFunction_refines _ _ _ Hname).
Qed.

Lemma tokenize_loop_refines steps expr i tokenList tokens :
  Tokenizer.tokenize_loop Tokenizer.readFunction steps expr i tokenList
  = Some (Normal tokens) →
  Tokenizer.tokenize_loop Compiled.readFunction steps expr i tokenList
  = Some (Normal tokens).
Proof.
  revert i tokenList.
  induction steps as [|steps IH]; intros i tokenList; [done|].
  cbn [Tokenizer.tokenize_loop].
  destruct (Nat.ltb i (String.length expr)); [|done].
  destruct (_ || _); [apply IH|].
  fold Tokenizer.readToken Compiled.readToken.
  destruct (Tokenizer.readToken expr i) as [[info|]|] eqn:Hread; [|done..].
  rewrite (readToken_refines _ _ _ Hread). apply IH.
Qed.

(** X13. The source refines the compiled artifact: on every string the
    source's [tokenize] turns into tokens, the artifact's [tokenize]
    returns the same tokens, so that the whole calculation gives the same
    there. *)
Theorem source_refines_artifact expr tokens :
  Tokenizer.tokenize expr = Some (Normal tokens) →
  Compiled.tokenize expr = Some (Normal tokens)
  ∧ calculate_by Compiled.tokenize expr = calculate expr.
Proof.
  intros Hsource.
  assert (Compiled.tokenize expr = Some (Normal tokens)) as Hartifact
    by by apply tokenize_loop_refines.
  split; [done|].
  unfold calculate, calculate_by. by rewrite Hsource, Hartifact.
Qed.

Lemma source_refines_artifact_witness :
  Compiled.tokenize "max(3,5)"
  = Some (Normal [TFunction max; TLeftParenthesis; TNumber 3;
                  TArgumentSeparator; TNumber 5; TRightParenthesis]).
Proof. exact (proj1 (source_refines_artifact "max(3,5)" _ eq_refl)). Defined.

(** *** A character before the string *)

(** Reading [String c expr] one position further is reading [expr]. *)
Section Shift.

Variables (c : ascii) (expr : string).

Lemma charCodeAt_shift i :
  JS.charCodeAt (String c expr) (S i) = JS.charCodeAt expr i.
Proof. done. Qed.

Lemma charAt_shift i : JS.charAt (String c expr) (S i) = JS.charAt expr i.
Proof. done. Qed.

Lemma substr_shift start len :
  JS.substr (String c expr) (S start) len = JS.substr expr start len.
Proof. done. Qed.

Lemma substring_shift from to :
  JS.substring (String c expr) (S from) (S to) = JS.substring expr from to.
Proof.
  unfold JS.substring. cbn [String.length].
  rewrite <- !Nat.succ_min_distr, <- Nat.succ_max_distr. done.
Qed.

Lemma readNumber_loop_shift steps i decimalMark :
  Tokenizer.readNumber_loop steps (String c expr) (S i) decimalMark
  = (S (Tokenizer.readNumber_loop steps expr i decimalMark).1,
     (Tokenizer.readNumber_loop steps expr i decimalMark).2).
Proof.
  revert i decimalMark.
  induction steps as [|steps IH]; intros i decimalMark; [done|].
  cbn [Tokenizer.readNumber_loop String.length].
  rewrite charCodeAt_shift.
  change (Nat.ltb (S i) (S (String.length expr)))
    with (Nat.ltb i (String.length expr)).
  destruct (Nat.ltb i (String.length expr)); [|done].
  destruct (JS.code_eq _ _).
  - destruct (Nat.eqb decimalMark 1); [done|]. apply IH.
  - destruct (_ || _); [done|]. apply IH.
Qed.

Lemma readNumber_shift index :
  Tokenizer.readNumber (String c expr) (S index)
  = Tokenizer.readNumber expr index.
Proof.
  unfold Tokenizer.readNumber. cbn [String.length].
  rewrite Nat.sub_succ, readNumber_loop_shift.
  destruct (Tokenizer.readNumber_loop _ expr index 0) as [i decimalMark].
  cbn [fst snd]. by rewrite Nat.sub_succ, substr_shift.
Qed.

Lemma parse_in_shift dic startIndex :
  Operator.parse_in dic (String c expr) (S startIndex)
  = Operator.parse_in dic expr startIndex.
Proof.
  induction dic as [|entry dic IH]; [done|].
  cbn [Operator.parse_in String.length].
  change (S startIndex + Operator.symbolLength entry)
    with (S (startIndex + Operator.symbolLength entry)).
  change (Nat.ltb (S (String.length expr))
            (S (startIndex + Operator.symbolLength entry)))
    with (Nat.ltb (String.length expr)
            (startIndex + Operator.symbolLength entry)).
  rewrite substring_shift, IH. done.
Qed.

Lemma isAlphaNumeric_shift i :
  Tokenizer.isAlphaNumeric (String c expr) (S i)
  = Tokenizer.isAlphaNumeric expr i.
Proof. done. Qed.

Lemma readFunction_loop_shift steps i :
  Tokenizer.readFunction_loop steps (String c expr) (S i)
  = S (Tokenizer.readFunction_loop steps expr i).
Proof.
  revert i. induction steps as [|steps IH]; intros i; [done|].
  cbn [Tokenizer.readFunction_loop String.length].
  change (Nat.ltb (S i) (S (String.length expr)))
    with (Nat.ltb i (String.length expr)).
  destruct (Nat.ltb i (String.length expr)); [|done].
  rewrite isAlphaNumeric_shift. destruct (negb _); [done|]. apply IH.
Qed.

Lemma compiled_readFunction_shift index :
  Compiled.readFunction (String c expr) (S index)
  = Compiled.readFunction expr index.
Proof.
  unfold Compiled.readFunction, Tokenizer.readFunction_by.
  change (Tokenizer.isAlphabetic (String c expr) (S index))
    with (Tokenizer.isAlphabetic expr index).
  destruct (negb _); [done|]. cbn [String.length].
  change (S index + 1) with (S (index + 1)).
  rewrite Nat.sub_succ, readFunction_loop_shift, substring_shift.
  by rewrite Nat.sub_succ.
Qed.

Lemma compiled_readToken_shift index :
  Compiled.readToken (String c expr) (S index)
  = Compiled.readToken expr index.
Proof.
  unfold Compiled.readToken, Tokenizer.readToken_by, Operator.parse.
  by rewrite readNumber_shift, parse_in_shift, charAt_shift,
    compiled_readFunction_shift.
Qed.

Lemma compiled_tokenize_loop_shift steps i tokenList :
  Tokenizer.tokenize_loop Compiled.readFunction steps (String c expr) (S i)
    tokenList
  = Tokenizer.tokenize_loop Compiled.readFunction steps expr i tokenList.
Proof.
  revert i tokenList.
  induction steps as [|steps IH]; intros i tokenList; [done|].
  cbn [Tokenizer.tokenize_loop String.length].
  change (Nat.ltb (S i) (S (String.length expr)))
    with (Nat.ltb i (String.length expr)).
  destruct (Nat.ltb i (String.length expr)); [|done].
  rewrite charCodeAt_shift. destruct (_ || _); [apply IH|].
  fold Compiled.readToken. rewrite compiled_readToken_shift, charAt_shift.
  destruct (Compiled.readToken expr i) as [[info|]|]; [|done..].
  apply (IH (i + charsRead info)).
Qed.

End Shift.

(** X14. The compiled tokenizer ignores a skipped character before the
    string: with a space, a line feed, a carriage return or a tab put in
    front, it returns what it returns without. *)
Theorem compiled_tokenize_leading_space c expr :
  c = " "%char ∨ c = "010"%char ∨ c = "013"%char ∨ c = "009"%char →
  Compiled.tokenize (String c expr) = Compiled.tokenize expr.
Proof.
  intros Hspace. unfold Compiled.tokenize, Tokenizer.tokenize_by.
  cbn [String.length].
  transitivity
    (Tokenizer.tokenize_loop Compiled.readFunction
       (S (String.length expr)) (String c expr) 1 []).
  - by destruct Hspace as [->|[->|[->| ->]]].
  - apply compiled_tokenize_loop_shift.
Qed.

Lemma compiled_tokenize_leading_space_witness :
  Compiled.tokenize (String " " "max(1,2)") = Compiled.tokenize "max(1,2)".
Proof. apply compiled_tokenize_leading_space. by left. Defined.

(** ** Further properties of the evaluator *)

Lemma evaluate_node token args :
  evaluate (mkExprNode token (Some args))
  = match token with
    | TNumber value => Some (Normal value)
    | _ =>
        match callee token with
        | Throw e => Some (Throw e)
        | Normal func =>
            match evaluate_all args with
            | Some (Normal values) => option_map Normal (apply func values)
            | Some (Throw e) => Some (Throw e)
            | None => None
            end
        end
    end.
Proof. by destruct token. Qed.

Lemma evaluate_all_well_formed args :
  Forall (λ n, well_formed n = true → ∀ e, evaluate n ≠ Some (Throw e)) args →
  forallb well_formed args = true →
  ∀ e, evaluate_all args ≠ Some (Throw e).
Proof.
  induction 1 as [|child args Hchild Hargs IH]; [done|].
  cbn [forallb evaluate_all]. intros [Hwf Hwfs]%andb_true_iff e.
  specialize (Hchild Hwf). specialize (IH Hwfs).
  destruct (evaluate child) as [[v|e']|]; [|by destruct (Hchild e')|done].
  destruct (evaluate_all args) as [[vs|e']|]; [done|by destruct (IH e')|done].
Qed.

Lemma evaluate_never_throws n :
  well_formed n = true → ∀ e, evaluate n ≠ Some (Throw e).
Proof.
  induction n as [token|token args IH] using ExprNode_induction.
  - by destruct token.
  - rewrite evaluate_node. destruct token; try done; cbn [well_formed callee];
      intros [_ Hargs]%andb_true_iff e;
      pose proof (evaluate_all_well_formed args IH Hargs) as Hall;
      (destruct (evaluate_all args) as [[values|e']|];
       [|by destruct (Hall e')|done]);
      by destruct (apply _ values).
Qed.

(** X15. Evaluation throws on no well-formed tree: if every operator and
    function node of a tree has as many children as its arity, and every
    number none, [evaluate] returns a number or, where a function of the
    program has no value in the model, nothing; it never throws. *)
Theorem evaluate_well_formed n :
  well_formed n = true → ∀ e, evaluate n ≠ Some (Throw e).
Proof. apply evaluate_never_throws. Qed.

Lemma evaluate_well_formed_witness :
  well_formed (node (TOperator Operator.add) [leaf 1; leaf 2]) = true
  ∧ ∀ e, evaluate (node (TOperator Operator.add) [leaf 1; leaf 2])
         ≠ Some (Throw e).
Proof.
  split; [reflexivity|].
  exact (evaluate_well_formed
           (node (TOperator Operator.add) [leaf 1; leaf 2]) eq_refl).
Defined.

(** ** Further properties of the tree builder *)

(** *** Exceptions, and tokens that never reach the tree *)

Lemma reduce_pending token exprStack :
  pending token → token ≠ TLeftParenthesis →
  Forall plain exprStack →
  match AST.reduce token exprStack with
  | Normal exprStack' => Forall plain exprStack'
  | Throw e => e = AST.NotEnoughExpressions
  end.
Proof.
  intros Hpending Hne Hall. unfold AST.reduce.
  destruct (negb _ && negb _) eqn:Htype; [by destruct token|].
  destruct (value_length token) as [argCount|] eqn:Harity;
    [|by destruct token].
  destruct (Nat.ltb_spec (length exprStack) argCount); [done|].
  constructor; [|by apply Forall_drop].
  assert (Is_true (forallb plain (rev (take argCount exprStack)))) as Hargs.
  { apply forallb_True, Forall_rev. by apply Forall_take. }
  by destruct token.
Qed.

Lemma rightParenthesis_outcome opStack exprStack :
  Forall pending opStack → Forall plain exprStack →
  match AST.rightParenthesis opStack exprStack with
  | Normal s => Forall pending s.1 ∧ Forall plain s.2
  | Throw e => create_error e
  end.
Proof.
  revert exprStack.
  induction opStack as [|top opStack IH]; intros exprStack Hops Hall.
  { by left. }
  apply Forall_cons in Hops as [Htop Hops].
  cbn [AST.rightParenthesis]. case_bool_decide as Hparen.
  - destruct opStack as [|next opStack]; cbn [AST.peek head].
    { by do 3 right. }
    apply Forall_cons in Hops as [Hnext Hops'].
    case_bool_decide as Hfunction; [|by split; [constructor|]].
    cbn [AST.popOperator].
    pose proof (reduce_pending next exprStack Hnext) as Hred.
    destruct (AST.reduce next exprStack) as [exprStack'|e]; cbn.
    + split; [done|]. apply Hred; [|done]. by intros ->.
    + rewrite Hred; [by do 2 right; left| |done]. by intros ->.
  - pose proof (reduce_pending top exprStack Htop) as Hred.
    destruct (AST.reduce top exprStack) as [exprStack'|e]; cbn.
    + apply IH; [done|]. apply Hred; [|done]. by intros ->.
    + rewrite Hred; [by do 2 right; left| |done]. by intros ->.
Qed.

Lemma operator_outcome op opStack exprStack :
  Forall pending opStack → Forall plain exprStack →
  match AST.operator op opStack exprStack with
  | Normal s => Forall pending s.1 ∧ Forall plain s.2
  | Throw e => create_error e
  end.
Proof.
  revert exprStack.
  induction opStack as [|top opStack IH]; intros exprStack Hops Hall; [done|].
  cbn [AST.operator]. destruct top; try done.
  destruct (_ && _); [done|]. destruct (_ && _); [done|].
  apply Forall_cons in Hops as [Htop Hops].
  pose proof (reduce_pending _ exprStack Htop) as Hred.
  destruct (AST.reduce _ exprStack) as [exprStack'|e]; cbn.
  - apply IH; [done|]. by apply Hred.
  - rewrite Hred; [by do 2 right; left|done..].
Qed.

Lemma argumentSeparator_outcome opStack exprStack :
  Forall pending opStack → Forall plain exprStack →
  match AST.argumentSeparator opStack exprStack with
  | Normal s => Forall pending s.1 ∧ Forall plain s.2
  | Throw e => create_error e
  end.
Proof.
  revert exprStack.
  induction opStack as [|top opStack IH]; intros exprStack Hops Hall.
  { by do 3 right. }
  cbn [AST.argumentSeparator]. case_bool_decide as Hparen; [done|].
  apply Forall_cons in Hops as [Htop Hops].
  apply IH; [done|]. constructor; [|done]. by destruct top.
Qed.

Lemma step_outcome token s :
  Forall pending s.1 → Forall plain s.2 →
  match AST.step token s with
  | Normal s' => Forall pending s'.1 ∧ Forall plain s'.2
  | Throw e => create_error e
  end.
Proof.
  destruct s as [opStack exprStack]. cbn [fst snd AST.step]. intros Hops Hall.
  destruct token.
  - split; [done|]. by constructor.
  - pose proof (operator_outcome value opStack exprStack Hops Hall) as Hout.
    destruct (AST.operator value opStack exprStack) as [[opStack' exprStack']|];
      cbn; [|done].
    destruct Hout. split; [by constructor|done].
  - split; [by constructor|done].
  - by apply rightParenthesis_outcome.
  - by apply argumentSeparator_outcome.
  - split; [by constructor|done].
Qed.

Lemma run_outcome tokens s :
  Forall pending s.1 → Forall plain s.2 →
  match AST.run tokens s with
  | Normal s' => Forall pending s'.1 ∧ Forall plain s'.2
  | Throw e => create_error e
  end.
Proof.
  revert s. induction tokens as [|token tokens IH]; intros s Hops Hall; [done|].
  cbn [AST.run]. pose proof (step_outcome token s Hops Hall) as Hstep.
  destruct (AST.step token s) as [s'|e]; cbn; [|done].
  destruct Hstep. by apply IH.
Qed.

Lemma remaining_outcome opStack exprStack :
  Forall pending opStack → Forall plain exprStack →
  match AST.remaining opStack exprStack with
  | Normal exprStack' => Forall plain exprStack'
  | Throw e => create_error e
  end.
Proof.
  revert exprStack.
  induction opStack as [|top opStack IH]; intros exprStack Hops Hall; [done|].
  cbn [AST.remaining]. case_bool_decide as Hparen; [by right; left|].
  apply Forall_cons in Hops as [Htop Hops].
  pose proof (reduce_pending top exprStack Htop) as Hred.
  destruct (AST.reduce top exprStack) as [exprStack'|e]; cbn.
  - apply IH; [done|]. apply Hred; [|done]. by intros ->.
  - rewrite Hred; [by do 2 right; left| |done]. by intros ->.
Qed.

Lemma create_outcome tokens :
  match AST.create tokens with
  | Normal (Some root) => plain root = true
  | Normal None => True
  | Throw e => create_error e
  end.
Proof.
  unfold AST.create.
  pose proof (run_outcome tokens ([], []) (Forall_nil_2 _) (Forall_nil_2 _))
    as Hrun.
  destruct (AST.run tokens ([], [])) as [[opStack exprStack]|e]; cbn; [|done].
  destruct Hrun as [Hops Hall].
  pose proof (remaining_outcome opStack exprStack Hops Hall) as Hrem.
  destruct (AST.remaining opStack exprStack) as [exprStack'|e]; cbn; [|done].
  destruct exprStack' as [|root below]; cbn; [done|].
  apply Forall_cons in Hrem as [Hroot _]. by apply Is_true_true.
Qed.

(** X16. The exceptions of [create]: whatever the tokens, it throws
    nothing but a mismatched parenthesis (right or left), "Not enough
    expressions on the stack.", or the engine's TypeError on the type of
    the top of an empty stack; the "Invalid operator or function token."
    of [popOperator] is never thrown. *)
Theorem create_throws tokens e :
  AST.create tokens = Throw e →
  (e = AST.MismatchedRightParen ∨ e = AST.MismatchedLeftParen
   ∨ e = AST.NotEnoughExpressions ∨ e = UndefinedAccess "type")
  ∧ e ≠ AST.InvalidOperator.
Proof.
  intros Hthrow. pose proof (create_outcome tokens) as Hout.
  rewrite Hthrow in Hout. split; [done|].
  by destruct Hout as [->|[->|[->| ->]]].
Qed.

Lemma create_throws_witness :
  (AST.NotEnoughExpressions = AST.MismatchedRightParen
   ∨ AST.NotEnoughExpressions = AST.MismatchedLeftParen
   ∨ AST.NotEnoughExpressions = AST.NotEnoughExpressions
   ∨ AST.NotEnoughExpressions = UndefinedAccess "type")
  ∧ AST.NotEnoughExpressions ≠ AST.InvalidOperator.
Proof.
  exact (create_throws [TOperator Operator.add; TNumber 1] _ eq_refl).
Defined.

(** X17. Parentheses and separators never reach the tree: every node of a
    tree returned by [create] is headed by a number, an operator or a
    function. *)
Theorem create_plain tokens root :
  AST.create tokens = Normal (Some root) → plain root = true.
Proof.
  intros Hcreate. pose proof (create_outcome tokens) as Hout.
  by rewrite Hcreate in Hout.
Qed.

Lemma create_plain_witness :
  plain (node (TFunction max)
           [bare (TOperator Operator.add); leaf 3]) = true.
Proof.
  exact (create_plain
           [TFunction max; TLeftParenthesis; TNumber 1;
            TOperator Operator.add; TNumber 2; TArgumentSeparator;
            TNumber 3; TRightParenthesis] _ eq_refl).
Defined.

(** X18. Without argument separators the tree is sound: for a token
    sequence that holds none, the tree [create] returns has, at every
    operator and function node, as many children as the arity, and its
    evaluation throws nothing. *)
Theorem create_separator_free tokens root :
  TArgumentSeparator ∉ tokens →
  AST.create tokens = Normal (Some root) →
  well_formed root = true ∧ ∀ e, evaluate root ≠ Some (Throw e).
Proof.
  intros Hfree Hcreate.
  assert (well_formed root = true) as Hwf
    by by apply Is_true_true, (create_well_formed tokens).
  split; [done|]. by apply evaluate_never_throws.
Qed.

Lemma create_separator_free_witness :
  well_formed (node (TOperator Operator.sub)
                 [leaf 7; node (TOperator Operator.neg) [leaf 2]]) = true
  ∧ ∀ e, evaluate (node (TOperator Operator.sub)
                     [leaf 7; node (TOperator Operator.neg) [leaf 2]])
         ≠ Some (Throw e).
Proof.
  refine (create_separator_free
            [TNumber 7; TOperator Operator.sub; TOperator Operator.neg;
             TNumber 2] _ _ eq_refl).
  intros Hin. repeat (apply elem_of_cons in Hin as [Hin|Hin]; [done|]).
  by apply elem_of_nil in Hin.
Defined.

(** *** Precedence and associativity in general *)

Lemma reduce_binary op right left below :
  Operator.length op = 2 →
  AST.reduce (TOperator op) (right :: left :: below)
  = Normal (node (TOperator op) [left; right] :: below).
Proof. intros Harity. unfold AST.reduce. cbn. by rewrite Harity. Qed.

(** Running [create] on tokens that are given but for the numbers and
    operators in them. *)
Ltac run_stacks :=
  repeat first
    [ progress cbn [AST.run AST.step AST.operator AST.remaining
                    AST.rightParenthesis AST.argumentSeparator
                    AST.popOperator AST.peek head mbind completion_bind
                    fst snd negb andb type]
    | rewrite reduce_binary by done
    | rewrite bool_decide_eq_false_2 by done
    | rewrite bool_decide_eq_true_2 by done ].

(** X19. Two binary operators between three numbers: in the tokens of
    [a op1 b op2 c] the first operator takes [a] and [b] exactly when the
    second is left-associative and binds no tighter than the first, or
    right-associative and binds less tightly; otherwise the second takes
    [b] and [c] first. *)
Theorem create_two_operators op1 op2 a b c :
  Operator.length op1 = 2 → Operator.length op2 = 2 →
  AST.create [TNumber a; TOperator op1; TNumber b; TOperator op2; TNumber c]
  = Normal (Some
      (if if Operator.isLeftAssociative op2
          then (Operator.precedence op2 <=? Operator.precedence op1)%Z
          else (Operator.precedence op2 <? Operator.precedence op1)%Z
       then node (TOperator op2) [node (TOperator op1) [leaf a; leaf b]; leaf c]
       else node (TOperator op1)
              [leaf a; node (TOperator op2) [leaf b; leaf c]])).
Proof.
  intros Harity1 Harity2. unfold AST.create.
  cbn [AST.run AST.step AST.operator mbind completion_bind].
  destruct (Operator.isLeftAssociative op2) eqn:Hleft; cbn [negb andb].
  - destruct (Z.leb_spec (Operator.precedence op2) (Operator.precedence op1))
      as [Hle|Hgt].
    + destruct (Z.ltb_spec (Operator.precedence op1) (Operator.precedence op2));
        [lia|].
      by run_stacks.
    + destruct (Z.ltb_spec (Operator.precedence op1) (Operator.precedence op2));
        [|lia].
      by run_stacks.
  - destruct (Z.ltb_spec (Operator.precedence op2) (Operator.precedence op1))
      as [Hlt|Hge].
    + destruct (Z.leb_spec (Operator.precedence op1) (Operator.precedence op2));
        [lia|].
      by run_stacks.
    + destruct (Z.leb_spec (Operator.precedence op1) (Operator.precedence op2));
        [|lia].
      by run_stacks.
Qed.

Lemma create_two_operators_witness :
  AST.create [TNumber 8; TOperator Operator.sub; TNumber 6;
              TOperator Operator.div; TNumber 2]
  = Normal (Some (node (TOperator Operator.sub)
                    [leaf 8; node (TOperator Operator.div) [leaf 6; leaf 2]])).
Proof.
  exact (create_two_operators Operator.sub Operator.div 8 6 2 eq_refl eq_refl).
Defined.

Section Chains.

Variable op : Operator.t.
Hypothesis binary : Operator.length op = 2.

Let pairs (rest : list float) : list Token :=
  flat_map (λ a, [TOperator op; TNumber a]) rest.

(** A left-associative operator: each one pops the one before it. *)
Lemma left_chain_run rest prev a :
  Operator.isLeftAssociative op = true →
  (s ← AST.run (pairs rest) ([TOperator op], [leaf a; prev]);
   AST.remaining s.1 s.2)
  = Normal [foldl (λ acc a, node (TOperator op) [acc; leaf a])
              (node (TOperator op) [prev; leaf a]) rest].
Proof.
  intros Hleft. revert prev a.
  induction rest as [|a' rest IH]; intros prev a.
  - cbn [pairs flat_map foldl]. by run_stacks.
  - cbn [pairs flat_map foldl app]. run_stacks. rewrite Hleft.
    rewrite Z.ltb_irrefl. run_stacks. apply IH.
Qed.

(** A right-associative operator: they pile up until the input ends. *)
Lemma right_chain_run rest pile below a :
  Operator.isLeftAssociative op = false →
  AST.run (pairs rest)
    (replicate pile (TOperator op), leaf a :: below)
  = Normal (replicate (length rest + pile) (TOperator op),
            (leaf <$> rev rest) ++ leaf a :: below).
Proof.
  intros Hright. revert pile below a.
  induction rest as [|a' rest IH]; intros pile below a; [done|].
  cbn [pairs flat_map app AST.run AST.step mbind completion_bind].
  assert (AST.operator op (replicate pile (TOperator op)) (leaf a :: below)
          = Normal (replicate pile (TOperator op), leaf a :: below)) as ->.
  { destruct pile as [|pile]; [done|]. cbn [replicate AST.operator].
    by rewrite Hright, Z.leb_refl. }
  run_stacks.
  etrans; [exact (IH (S pile) (leaf a :: below) a')|].
  cbn [rev length]. rewrite fmap_app, <- app_assoc. cbn.
  by rewrite Nat.add_succ_r.
Qed.

Lemma right_chain_remaining earlier acc :
  AST.remaining (replicate (length earlier) (TOperator op))
    (acc :: (leaf <$> earlier))
  = Normal [foldl (λ acc a, node (TOperator op) [leaf a; acc]) acc earlier].
Proof.
  revert acc. induction earlier as [|a earlier IH]; intros acc; [done|].
  cbn [length replicate fmap list_fmap foldl]. run_stacks. apply IH.
Qed.

Lemma foldl_nest front inner :
  foldl (λ acc a, node (TOperator op) [leaf a; acc]) inner (rev front)
  = nest op front inner.
Proof.
  induction front as [|a front IH]; [done|].
  cbn [rev nest]. by rewrite foldl_app, IH.
Qed.

Lemma right_nested_nest a0 rest :
  ∃ front last,
    a0 :: rest = front ++ [last]
    ∧ nest op front (leaf last) = right_nested op a0 rest.
Proof.
  revert a0. induction rest as [|a1 rest IH]; intros a0.
  - by exists [], a0.
  - destruct (IH a1) as (front & last & Hsplit & Hnest).
    exists (a0 :: front), last. cbn. by rewrite Hsplit, Hnest.
Qed.

(** X20. A chain of one binary operator groups by its associativity: the
    tokens of [a0 op a1 op ... op an] become the tree nested to the left
    when [op] is left-associative and the tree nested to the right when
    it is right-associative. *)
Theorem create_chain a0 rest :
  AST.create (chain op a0 rest)
  = Normal (Some (if Operator.isLeftAssociative op
                  then left_nested op a0 rest
                  else right_nested op a0 rest)).
Proof.
  unfold AST.create, chain.
  cbn [AST.run AST.step mbind completion_bind]. fold (pairs rest).
  destruct (Operator.isLeftAssociative op) eqn:Hassoc.
  - destruct rest as [|a1 rest]; [done|].
    cbn [pairs flat_map app]. run_stacks. fold (pairs rest).
    pose proof (left_chain_run rest (leaf a0) a1 Hassoc) as Hrun.
    destruct (AST.run (pairs rest) _) as [[opStack exprStack]|]; [|done].
    cbn [mbind completion_bind fst snd] in Hrun |- *. by rewrite Hrun.
  - etrans.
    { apply (f_equal (λ c, c ≫= _)).
      exact (right_chain_run rest 0 [] a0 Hassoc). }
    cbn [mbind completion_bind replicate]. rewrite Nat.add_0_r.
    destruct (right_nested_nest a0 rest) as (front & last & Hsplit & <-).
    assert ((leaf <$> rev rest) ++ [leaf a0]
            = leaf last :: (leaf <$> rev front)) as ->.
    { change ((leaf <$> rev rest) ++ [leaf a0])
        with ((leaf <$> rev rest) ++ (leaf <$> [a0])).
      rewrite <- fmap_app.
      change (rev rest ++ [a0]) with (rev (a0 :: rest)).
      by rewrite Hsplit, rev_app_distr. }
    assert (length rest = length (rev front)) as ->.
    { apply (f_equal length) in Hsplit. rewrite length_app in Hsplit.
      rewrite length_rev. cbn in Hsplit. lia. }
    rewrite right_chain_remaining. cbn [mbind completion_bind head].
    by rewrite foldl_nest.
Qed.

End Chains.

Lemma create_chain_witness :
  AST.create (chain Operator.pow 2 [3%float; 2%float; 1%float])
  = Normal (Some (right_nested Operator.pow 2 [3%float; 2%float; 1%float])).
Proof. exact (create_chain Operator.pow eq_refl 2 [3%float; 2%float; 1%float]). Defined.

(** *** Calls *)

Lemma separated_run rest below exprStack :
  AST.run (flat_map (λ b, [TArgumentSeparator; TNumber b]) rest)
    (TLeftParenthesis :: below, exprStack)
  = Normal (TLeftParenthesis :: below, (leaf <$> rev rest) ++ exprStack).
Proof.
  revert exprStack.
  induction rest as [|b rest IH]; intros exprStack; [done|].
  cbn [flat_map app AST.run AST.step AST.argumentSeparator].
  rewrite bool_decide_eq_true_2 by done. cbn [mbind completion_bind rev].
  rewrite fmap_app, <- app_assoc. apply IH.
Qed.

Lemma arguments_run args below exprStack :
  AST.run (arguments args) (TLeftParenthesis :: below, exprStack)
  = Normal (TLeftParenthesis :: below, (leaf <$> rev args) ++ exprStack).
Proof.
  destruct args as [|a rest]; [done|]. cbn [arguments AST.run AST.step].
  cbn [mbind completion_bind rev].
  rewrite fmap_app, <- app_assoc. apply separated_run.
Qed.

Lemma fmap_rev {A B} (f : A → B) (l : list A) :
  f <$> rev l = rev (f <$> l).
Proof.
  induction l as [|x l IH]; [done|]. cbn. by rewrite fmap_app, IH.
Qed.

(** The values of leaves. *)
Lemma evaluate_leaves f values :
  evaluate (node (TFunction f) (leaf <$> values))
  = option_map Normal (apply f values).
Proof.
  unfold node. rewrite evaluate_node. cbn [callee].
  assert (evaluate_all (leaf <$> values) = Some (Normal values)) as ->;
    [|done].
  induction values as [|v values IH]; [done|].
  cbn [fmap list_fmap evaluate_all]. cbn [evaluate leaf]. by rewrite IH.
Qed.

(** X21. A call on numbers: the tokens of [f(a1, ..., an)] become the
    node of [f] over its last [f.length] arguments, the arguments before
    them being dropped without a word, and the value is that of [f] on
    those; with fewer arguments than [f.length], [create] throws "Not
    enough expressions on the stack.". *)
Theorem create_call f args :
  let surplus := length args - func_length f in
  AST.create (call f args)
  = (if Nat.ltb (length args) (func_length f)
     then Throw AST.NotEnoughExpressions
     else Normal (Some (node (TFunction f) (leaf <$> drop surplus args))))
  ∧ evaluate (node (TFunction f) (leaf <$> drop surplus args))
    = option_map Normal (apply f (drop surplus args)).
Proof.
  intros surplus. split; [|apply evaluate_leaves].
  unfold AST.create, call.
  cbn [AST.run AST.step mbind completion_bind].
  rewrite run_app, arguments_run. rewrite app_nil_r.
  cbn [mbind completion_bind AST.run AST.step AST.rightParenthesis].
  rewrite bool_decide_eq_true_2 by done. cbn [AST.peek head].
  rewrite bool_decide_eq_true_2 by done.
  cbn [AST.popOperator]. unfold AST.reduce.
  cbn [type value_length]. rewrite bool_decide_eq_true_2 by done.
  cbn [negb andb]. rewrite length_fmap, length_rev.
  destruct (Nat.ltb (length args) (func_length f)); [done|].
  cbn [mbind completion_bind AST.remaining head]. do 3 f_equal.
  rewrite <- fmap_take, <- fmap_rev. f_equal.
  by rewrite firstn_rev, rev_involutive.
Qed.

(** *** A left parenthesis at the bottom of the stack *)

Lemma rightParenthesis_bottomed above exprStack s :
  AST.rightParenthesis (above ++ [TLeftParenthesis]) exprStack = Normal s →
  bottomed s.
Proof.
  revert exprStack.
  induction above as [|top above IH]; intros exprStack; [done|].
  cbn [app AST.rightParenthesis]. case_bool_decide as Hparen.
  - destruct above as [|next above]; cbn [app AST.peek head].
    + rewrite bool_decide_eq_false_2 by done. intros [= <-]. by exists [].
    + case_bool_decide as Hfunction.
      * cbn [AST.popOperator].
        destruct (AST.reduce next exprStack); [|done].
        cbn. intros [= <-]. by exists above.
      * intros [= <-]. by exists (next :: above).
  - destruct (AST.reduce top exprStack); [|done]. cbn. apply IH.
Qed.

Lemma operator_bottomed op above exprStack s :
  AST.operator op (above ++ [TLeftParenthesis]) exprStack = Normal s →
  bottomed s.
Proof.
  revert exprStack.
  induction above as [|top above IH]; intros exprStack.
  { cbn. intros [= <-]. by exists []. }
  cbn [app AST.operator].
  destruct top; try (intros [= <-]; by eexists (_ :: above)).
  destruct (_ && _); [intros [= <-]; by eexists (_ :: above)|].
  destruct (_ && _); [intros [= <-]; by eexists (_ :: above)|].
  destruct (AST.reduce _ exprStack); [|done]. cbn. apply IH.
Qed.

Lemma argumentSeparator_bottomed above exprStack s :
  AST.argumentSeparator (above ++ [TLeftParenthesis]) exprStack = Normal s →
  bottomed s.
Proof.
  revert exprStack.
  induction above as [|top above IH]; intros exprStack.
  { cbn. intros [= <-]. by exists []. }
  cbn [app AST.argumentSeparator].
  case_bool_decide; [intros [= <-]; by exists (top :: above)|]. apply IH.
Qed.

Lemma step_bottomed token s s' :
  bottomed s → AST.step token s = Normal s' → bottomed s'.
Proof.
  destruct s as [opStack exprStack]. intros [above Habove].
  cbn [fst] in Habove. subst opStack. cbn [AST.step].
  destruct token.
  - intros [= <-]. by exists above.
  - destruct (AST.operator _ _ exprStack) as [[opStack' exprStack']|]
      eqn:Hop; [|done].
    cbn. intros [= <-].
    destruct (operator_bottomed _ _ _ _ Hop) as [above' Habove'].
    cbn [fst] in Habove'. subst opStack'. by eexists (_ :: above').
  - intros [= <-]. by eexists (_ :: above).
  - apply rightParenthesis_bottomed.
  - apply argumentSeparator_bottomed.
  - intros [= <-]. by eexists (_ :: above).
Qed.

Lemma run_bottomed tokens s s' :
  bottomed s → AST.run tokens s = Normal s' → bottomed s'.
Proof.
  revert s. induction tokens as [|token tokens IH]; intros s Hs.
  { by intros [= <-]. }
  cbn [AST.run]. destruct (AST.step token s) as [s1|] eqn:Hstep; [|done].
  cbn. apply IH. by eapply step_bottomed.
Qed.

Lemma remaining_bottomed above exprStack :
  ∃ e, AST.remaining (above ++ [TLeftParenthesis]) exprStack = Throw e.
Proof.
  revert exprStack.
  induction above as [|top above IH]; intros exprStack; [by eexists|].
  cbn [app AST.remaining]. case_bool_decide; [by eexists|].
  destruct (AST.reduce top exprStack); cbn; [apply IH|by eexists].
Qed.

(** X22. No token sequence that begins with a left parenthesis is ever
    parsed: whatever follows, [create] throws.  (The parenthesis stays at
    the bottom of the stack until its right parenthesis pops it, and the
    look at the top of the emptied stack is then fatal; without that right
    parenthesis the closing loop throws.) *)
Theorem create_leading_parenthesis tokens :
  ∃ e, AST.create (TLeftParenthesis :: tokens) = Throw e.
Proof.
  unfold AST.create. cbn [AST.run AST.step mbind completion_bind].
  destruct (AST.run tokens ([TLeftParenthesis], []))
    as [[opStack exprStack]|e] eqn:Hrun; [|by exists e].
  assert (bottomed ([TLeftParenthesis], [])) as Hstart by by exists [].
  destruct (run_bottomed tokens _ _ Hstart Hrun) as [above Habove].
  cbn [fst] in Habove. subst opStack. cbn [mbind completion_bind].
  destruct (remaining_bottomed above exprStack) as [e ->]. by exists e.
Qed.

(** X23. What an argument separator does to the stacks: with a left
    parenthesis on [opStack] it moves every token above the topmost one
    to [exprStack], each as a node without children and none of them
    reduced, leaving the parenthesis on top; with none it throws the
    engine's TypeError on the type of the top of an empty stack. *)
Theorem separator_step :
  (∀ above below exprStack,
     TLeftParenthesis ∉ above →
     AST.step TArgumentSeparator (above ++ TLeftParenthesis :: below, exprStack)
     = Normal (TLeftParenthesis :: below,
               rev (bare <$> above) ++ exprStack))
  ∧ (∀ opStack exprStack,
       TLeftParenthesis ∉ opStack →
       AST.step TArgumentSeparator (opStack, exprStack)
       = Throw (UndefinedAccess "type")).
Proof.
  split.
  - intros above below exprStack Hnot. by apply argumentSeparator_under.
  - intros opStack exprStack Hnot. by apply argumentSeparator_outside.
Qed.

Lemma separator_step_witness :
  AST.step TArgumentSeparator
    ([TOperator Operator.mul; TOperator Operator.add]
       ++ TLeftParenthesis :: [TFunction min],
     [leaf 3; leaf 2; leaf 1])
  = Normal (TLeftParenthesis :: [TFunction min],
            rev (bare <$> [TOperator Operator.mul; TOperator Operator.add])
              ++ [leaf 3; leaf 2; leaf 1]).
Proof.
  apply (proj1 separator_step).
  intros [Hin|[Hin|Hin%elem_of_nil]%elem_of_cons]%elem_of_cons; done.
Defined.
